(** * argz: a command-line argument binder (include/argz/argz.hpp)

    A shallow embedding of [argz::detail::parse] (coercion of one token into
    a bound slot) and of [argz::parse] (the scan over [argv]), followed by the
    properties of the specification that concern them.

    Modelling choices, all visible in the definitions below:
    - the caller's variables live in a store [gmap loc cell]; a binding
      ([var]) is a tag together with the location it refers to, so two
      options may alias the same variable;
    - [argv] is the array of [char*] cells that the pointer designates:
      a cell is [None] for a null pointer and [Some s] for a pointer to the
      bytes [s]; the array of [main] has [argc + 1] cells, the last one null;
    - reading a cell outside the array, or dereferencing a null pointer, is
      undefined behaviour: the outcome [Undefined];
    - exceptions are outcomes that carry the state reached when they were
      thrown, since the mutations made before the throw stay visible;
    - [std::cout] is a list of output events;
    - the [about] object is kept apart from the bound variables: no option
      is taken to be bound to one of its members;
    - [long] is 64 bits wide (LP64) and conversions to the fixed-width
      integer types wrap (C++20);
    - [double] values are abstract: an instance of [StdFloat] says which
      value [strtod] gives to a text and when it reports a range error; the
      grammar that decides whether a conversion happens at all is modelled
      here. *)

From Stdlib Require Import ZArith String Ascii Lia.
From Stdlib Require Import DecimalString DecimalPos DecimalZ.
From stdpp Require Import base numbers option list gmap strings.

Local Open Scope string_scope.
Local Open Scope Z_scope.

Module argz.

(** ** Exceptions and results *)

(** The exception types the code throws, each with its [what()] text. *)
Inductive exn : Type :=
  | runtime_error (what : string)
  | invalid_argument (what : string)
  | out_of_range (what : string).

Inductive result (A : Type) : Type :=
  | Ok (a : A)
  | Throw (e : exn).
Arguments Ok {A} a.
Arguments Throw {A} e.

Definition result_bind {A B : Type} (r : result A) (k : A -> result B) : result B :=
  match r with
  | Ok a => k a
  | Throw e => Throw e
  end.

Notation "x <~ r ;; k" := (result_bind r (fun x => k))
  (at level 100, r at next level, right associativity, only parsing).

(** ** C strings *)

(** The characters a [const char*] designates: those before the first NUL. *)
Fixpoint c_str (s : string) : string :=
  match s with
  | EmptyString => EmptyString
  | String c r => if Ascii.eqb c Ascii.zero then EmptyString else String c (c_str r)
  end.

(** [std::string_view::empty]. *)
Definition is_empty (s : string) : bool :=
  match s with
  | EmptyString => true
  | String _ _ => false
  end.

(** ** std::stol *)

Definition LONG_MAX : Z := 2 ^ 63 - 1.
Definition LONG_MIN : Z := - 2 ^ 63.

(** [isspace] in the "C" locale: space and the controls \t \n \v \f \r. *)
Definition isspace (c : ascii) : bool :=
  let n := Z.of_nat (nat_of_ascii c) in
  (n =? 32) || ((9 <=? n) && (n <=? 13)).

Definition digit_of (c : ascii) : option Z :=
  let n := Z.of_nat (nat_of_ascii c) in
  if (48 <=? n) && (n <=? 57) then Some (n - 48) else None.

Fixpoint skip_space (s : string) : string :=
  match s with
  | String c r => if isspace c then skip_space r else s
  | EmptyString => s
  end.

(** The optional sign: whether it is a minus, and the text after it. *)
Definition skip_sign (s : string) : bool * string :=
  match s with
  | String c r =>
      if Ascii.eqb c "-" then (true, r)
      else if Ascii.eqb c "+" then (false, r)
      else (false, s)
  | EmptyString => (false, s)
  end.

Definition starts_with_digit (s : string) : bool :=
  match s with
  | String c _ => match digit_of c with Some _ => true | None => false end
  | EmptyString => false
  end.

(** The value of the longest run of decimal digits [s] starts with. *)
Fixpoint digits (acc : Z) (s : string) : Z :=
  match s with
  | String c r =>
      match digit_of c with
      | Some d => digits (10 * acc + d) r
      | None => acc
      end
  | EmptyString => acc
  end.

(** [strtol(s, &end, 10)]: the exact value of the subject sequence, or
    [None] when there is none ([end == s]). What follows the digits is
    ignored. *)
Definition strtol (s : string) : option Z :=
  let '(neg, r) := skip_sign (skip_space s) in
  if starts_with_digit r
  then Some (if neg then - digits 0 r else digits 0 r)
  else None.

(** [std::stol(s)]: no conversion is [std::invalid_argument], a value
    outside [long] is [std::out_of_range]; [what()] is the name of the
    function, as in libstdc++. *)
Definition stol (s : string) : result Z :=
  match strtol s with
  | None => Throw (invalid_argument "stol")
  | Some n =>
      if (LONG_MIN <=? n) && (n <=? LONG_MAX) then Ok n
      else Throw (out_of_range "stol")
  end.

(** [static_cast] of a [long] to the fixed-width integer types. *)
Definition wrap_unsigned (w n : Z) : Z := n mod 2 ^ w.
Definition wrap_signed (w n : Z) : Z := (n + 2 ^ (w - 1)) mod 2 ^ w - 2 ^ (w - 1).

(** ** std::stod *)

(** What the floating-point library contributes: the type of [double]s,
    [double{}], the value [strtod] gives to a text that has a subject
    sequence, and whether that conversion sets [ERANGE]. *)
Class StdFloat : Type := {
  double : Type;
  double_zero : double;
  strtod_value : string -> double;
  strtod_erange : string -> bool
}.

Definition to_lower (c : ascii) : ascii :=
  let n := nat_of_ascii c in
  if ((65 <=? n) && (n <=? 90))%nat then ascii_of_nat (n + 32) else c.

(** [s] starts with the lower-case word [w], whatever the case in [s]. *)
Fixpoint starts_with_word (w s : string) : bool :=
  match w, s with
  | EmptyString, _ => true
  | String a w', String c s' => Ascii.eqb a (to_lower c) && starts_with_word w' s'
  | String _ _, EmptyString => false
  end.

(** Whether [strtod] finds a subject sequence at [r], the text after white
    space and sign: a digit (decimal or the 0 of a hexadecimal form), a
    point followed by a digit, or INF / INFINITY / NAN in any case. *)
Definition strtod_start (r : string) : bool :=
  starts_with_digit r
  || match r with
     | String c r' => Ascii.eqb c "." && starts_with_digit r'
     | EmptyString => false
     end
  || starts_with_word "inf" r
  || starts_with_word "nan" r.

Definition strtod_converts (s : string) : bool :=
  strtod_start (snd (skip_sign (skip_space s))).

Definition stod `{StdFloat} (s : string) : result double :=
  if strtod_converts s then
    if strtod_erange s then Throw (out_of_range "stod") else Ok (strtod_value s)
  else Throw (invalid_argument "stod").

(** ** std::to_string *)

(** [std::to_string] of an integer: its decimal digits, with a minus sign
    for a negative one. *)
Definition to_string_Z (n : Z) : string := NilZero.string_of_int (Z.to_int n).

(** [std::to_string(double)], the text [printf] gives for [%f]. *)
Class StdToString `{StdFloat} : Type := to_string_double : double -> string.

(** ** Bindings, options and the state a call works on *)

(** Where a caller's variable lives. *)
Abbreviation loc := positive.

(** The types [T] for which [var] has both [ref<T>] and [ref_opt<T>]. *)
Inductive ty : Type :=
  | Tint32 | Tuint32 | Tint64 | Tuint64 | Tdouble | Tstring | Tpath.

(** [argz::var]: the fifteen alternatives of the variant; [bool] is the
    only type without an optional form. *)
Inductive var : Type :=
  | ref_bool (x : loc)
  | ref (T : ty) (x : loc)
  | ref_opt (T : ty) (x : loc).

Record ids_t : Type := { id : string; alias : ascii }.

Record arg_t : Type := { ids : ids_t; value : var; arg_help : string }.

Abbreviation options := (list arg_t).

Record about : Type := {
  description : string;
  version : string;
  print_help_when_no_options : bool;
  printed_help : bool;
  printed_version : bool
}.

(** [std::filesystem::path(str)]: the path keeps the text it was built from. *)
Inductive path : Type := Path (native : string).

Section Data.
Context `{FP : StdFloat}.

Inductive val : Type :=
  | Vbool (b : bool)
  | Vint32 (n : Z)
  | Vuint32 (n : Z)
  | Vint64 (n : Z)
  | Vuint64 (n : Z)
  | Vdouble (d : double)
  | Vstring (s : string)
  | Vpath (p : path).

(** What a location holds: a [T] or a [std::optional<T>]. *)
Inductive cell : Type :=
  | Obj (v : val)
  | Opt (o : option val).

(** What was written to [std::cout]: the help text (it shows the
    description, the version and the current value of every bound
    variable) or the version line. *)
Inductive event : Type :=
  | WroteHelp (description version : string) (defaults : gmap loc cell)
  | WroteVersion (version : string).

(** The [about] object, the caller's variables and [std::cout]. *)
Record state : Type := {
  ctx : about;
  mem : gmap loc cell;
  cout : list event
}.

(** How a call ends. *)
Inductive outcome : Type :=
  | Returned (s : state)
  | Thrown (e : exn) (s : state)
  | Undefined.

End Data.

Module detail.
Section Coercion.
Context `{FP : StdFloat}.

(** The value a [ref<T>] arm of the visitor assigns to [x.get()]. *)
Definition convert (T : ty) (str : string) : result val :=
  match T with
  | Tstring => Ok (Vstring str)
  | Tpath => Ok (Vpath (Path str))
  | Tdouble => d <~ stod str ;; Ok (Vdouble d)
  | Tint32 => n <~ stol str ;; Ok (Vint32 (wrap_signed 32 n))
  | Tuint32 => n <~ stol str ;; Ok (Vuint32 (wrap_unsigned 32 n))
  | Tint64 => n <~ stol str ;; Ok (Vint64 (wrap_signed 64 n))
  | Tuint64 => n <~ stol str ;; Ok (Vuint64 (wrap_unsigned 64 n))
  end.

(** [T{}]. *)
Definition zero (T : ty) : val :=
  match T with
  | Tint32 => Vint32 0
  | Tuint32 => Vuint32 0
  | Tint64 => Vint64 0
  | Tuint64 => Vuint64 0
  | Tdouble => Vdouble double_zero
  | Tstring => Vstring ""
  | Tpath => Vpath (Path "")
  end.

(** The arm of the visitor for a [ref<T>]: [x.get()] is assigned the
    converted text. This is also what the inner call of the [ref_opt<T>]
    arm runs, its variant holding a [ref<T>]. *)
Definition parse_ref (str : string) (T : ty) (x : loc) (m : gmap loc cell)
  : result (gmap loc cell) :=
  a <~ convert T str ;; Ok (<[x := Obj a]> m).

(** The [T] a frame holds at [x], [T{}] standing in where it holds none. *)
Definition get (T : ty) (x : loc) (frame : gmap loc cell) : val :=
  match frame !! x with
  | Some (Obj a) => a
  | _ => zero T
  end.

(** [detail::parse(c, v)]. The [ref_opt<T>] arm works on a frame of its
    own that holds the local [temp], initialised to [T{}]: the inner call
    on [ref<T>{temp}] assigns it or throws, and [emplace] stores what
    [temp] then holds. *)
Definition parse (c : option string) (v : var) (m : gmap loc cell)
  : result (gmap loc cell) :=
  match c with
  | None => Ok m
  | Some bytes =>
      let str := c_str bytes in
      match v with
      | ref_bool x => Ok (<[x := Obj (Vbool (String.eqb str "true"))]> m)
      | ref T x => parse_ref str T x m
      | ref_opt T x =>
          let temp := 1%positive in
          frame <~ parse_ref str T temp {[temp := Obj (zero T)]} ;;
          Ok (<[x := Opt (Some (get T temp frame))]> m)
      end
  end.

End Coercion.

Section Rendering.
Context `{FP : StdFloat} {TS : @StdToString FP}.

(** The text of a [T] object; [None] when the value is not a [T], which
    the types of the program rule out. *)
Definition render (T : ty) (a : val) : option string :=
  match T, a with
  | Tint32, Vint32 n | Tuint32, Vuint32 n
  | Tint64, Vint64 n | Tuint64, Vuint64 n => Some (to_string_Z n)
  | Tdouble, Vdouble d => Some (to_string_double d)
  | Tstring, Vstring s => Some s
  | Tpath, Vpath (Path s) => Some s
  | _, _ => None
  end.

(** [detail::to_string(v)]: the variable the binding refers to, as text.
    A [bool] goes through [std::to_string(int)]; an optional without a
    value gives the empty string. [None] when the location does not hold
    an object of the binding's type. *)
Definition to_string (v : var) (m : gmap loc cell) : option string :=
  match v with
  | ref_bool x =>
      match m !! x with
      | Some (Obj (Vbool b)) => Some (to_string_Z (if b then 1 else 0))
      | _ => None
      end
  | ref T x =>
      match m !! x with
      | Some (Obj a) => render T a
      | _ => None
      end
  | ref_opt T x =>
      match m !! x with
      | Some (Opt (Some a)) => render T a
      | Some (Opt None) => Some ""
      | _ => None
      end
  end.

End Rendering.
End detail.

Section Scanner.
Context `{FP : StdFloat}.

Definition set_mem (m : gmap loc cell) (s : state) : state :=
  {| ctx := ctx s; mem := m; cout := cout s |}.

(** [help(about, opts)]: sets [printed_help] and writes the help text. *)
Definition help (opts : options) (s : state) : state :=
  let a := ctx s in
  {| ctx := {| description := description a;
               version := version a;
               print_help_when_no_options := print_help_when_no_options a;
               printed_help := true;
               printed_version := printed_version a |};
     mem := mem s;
     cout := (cout s ++ [WroteHelp (description a) (version a) (mem s)])%list |}.

(** The [v] / [version] branch of the scan. *)
Definition write_version (s : state) : state :=
  let a := ctx s in
  {| ctx := {| description := description a;
               version := version a;
               print_help_when_no_options := print_help_when_no_options a;
               printed_help := printed_help a;
               printed_version := true |};
     mem := mem s;
     cout := (cout s ++ [WroteVersion (version a)])%list |}.

(** The lambda [get_id]: the id of the first option with that alias, or
    the empty view. *)
Fixpoint get_id (opts : options) (a : ascii) : string :=
  match opts with
  | [] => ""
  | x :: rest => if Ascii.eqb (alias (ids x)) a then id (ids x) else get_id rest a
  end.

(** [argv[i]]: [None] when the index is outside the array. *)
Definition argv_at (argv : list (option string)) (i : Z) : option (option string) :=
  if i <? 0 then None else argv !! Z.to_nat i.

(** What one pass through a loop does: go on from an index, or stop. *)
Inductive step : Type :=
  | Next (i : Z) (s : state)
  | Stop (o : outcome).

(** The inner [for] over the options, run from the options still to visit:
    every option whose id equals [str] is handled, a boolean one is set,
    any other one is given [argv[++i]]. *)
Fixpoint dispatch (opts : options) (str : string) (argv : list (option string))
    (i : Z) (s : state) : step :=
  match opts with
  | [] => Next i s
  | x :: rest =>
      if String.eqb (id (ids x)) str then
        match value x with
        | ref_bool b =>
            dispatch rest str argv i (set_mem (<[b := Obj (Vbool true)]> (mem s)) s)
        | v =>
            match argv_at argv (i + 1) with
            | None => Stop Undefined
            | Some c =>
                match detail.parse c v (mem s) with
                | Ok m => dispatch rest str argv (i + 1) (set_mem m s)
                | Throw e => Stop (Thrown e s)
                end
            end
        end
      else dispatch rest str argv i s
  end.

(** [s] without its first character when that is a dash. *)
Definition strip_dash (s : string) : option string :=
  match s with
  | String c r => if Ascii.eqb c "-" then Some r else None
  | EmptyString => None
  end.

(** The text of a flag token after its one or two dashes; [None] when the
    token does not start with a dash. *)
Definition flag_text (token : string) : option string :=
  match strip_dash token with
  | None => None
  | Some f => Some (match strip_dash f with Some g => g | None => f end)
  end.

(** The identifier a flag text stands for: a text of one character is an
    alias and is replaced by what [get_id] finds, which must not be empty. *)
Definition resolve (opts : options) (str : string) : result string :=
  match str with
  | String a EmptyString =>
      let r := get_id opts a in
      if is_empty r
      then Throw (runtime_error ("Invalid alias flag '-' for: " +:+ r))
      else Ok r
  | _ => Ok str
  end.

(** The body of the outer [for], at index [i < argc], with the [++i] that
    follows it. *)
Definition loop_body (opts : options) (argv : list (option string))
    (i : Z) (s : state) : step :=
  match argv_at argv i with
  | None | Some None => Stop Undefined
  | Some (Some bytes) =>
      match flag_text (c_str bytes) with
      | None => Stop (Thrown (runtime_error "Expected '-'") s)
      | Some str =>
          if String.eqb str "h" || String.eqb str "help" then Next (i + 1) (help opts s)
          else if String.eqb str "v" || String.eqb str "version"
          then Next (i + 1) (write_version s)
          else
            match resolve opts str with
            | Throw e => Stop (Thrown e s)
            | Ok str' =>
                if is_empty str' then Stop (Returned s)
                else
                  match dispatch opts str' argv i s with
                  | Next i' s' => Next (i' + 1) s'
                  | Stop o => Stop o
                  end
            end
      end
  end.

(** The outer [for], from index [i]; [None] when [fuel] passes do not
    finish it. *)
Fixpoint loop (fuel : nat) (opts : options) (argc : Z)
    (argv : list (option string)) (i : Z) (s : state) : option outcome :=
  if i <? argc then
    match fuel with
    | O => None
    | S fuel' =>
        match loop_body opts argv i s with
        | Next i' s' => loop fuel' opts argc argv i' s'
        | Stop o => Some o
        end
    end
  else Some (Returned s).

(** The number of passes the outer [for] makes from index [i]. *)
Fixpoint passes (fuel : nat) (opts : options) (argc : Z)
    (argv : list (option string)) (i : Z) (s : state) : option nat :=
  if i <? argc then
    match fuel with
    | O => None
    | S fuel' =>
        match loop_body opts argv i s with
        | Next i' s' => S <$> passes fuel' opts argc argv i' s'
        | Stop _ => Some 1%nat
        end
    end
  else Some 0%nat.

(** [argz::parse(about, opts, argc, argv)]; the state holds [about]. A pass
    moves the index forward, so [argc] passes are enough
    (see [parse_terminates]). *)
Definition parse (opts : options) (argc : Z) (argv : list (option string))
    (s : state) : option outcome :=
  if argc =? 1 then
    Some (Returned (if print_help_when_no_options (ctx s) then help opts s else s))
  else loop (Z.to_nat argc) opts argc argv 1 s.

End Scanner.

Section HelpText.
Context `{FP : StdFloat} {TS : @StdToString FP}.

(** The character written for a line end. *)
Definition nl : string := String (ascii_of_nat 10) "".

(** What the body of the [for] in [help] writes for one option. *)
Definition option_line (x : arg_t) (m : gmap loc cell) : option string :=
  match detail.to_string (value x) m with
  | None => None
  | Some default =>
      Some ((if Ascii.eqb (alias (ids x)) Ascii.zero
             then (if (String.length (id (ids x)) =? 1)%nat then "-" else "--")
                  +:+ id (ids x)
             else "-" +:+ String (alias (ids x)) ", --" +:+ id (ids x))
            +:+ "    " +:+ arg_help x
            +:+ (if is_empty default then nl else ", default: " +:+ default +:+ nl))
  end.

Fixpoint option_lines (opts : options) (m : gmap loc cell) : option string :=
  match opts with
  | [] => Some ""
  | x :: rest =>
      match option_line x m, option_lines rest m with
      | Some line, Some lines => Some (line +:+ lines)
      | _, _ => None
      end
  end.

(** The text [help(about, opts)] writes to [std::cout]. *)
Definition help_text (description version : string) (opts : options)
    (m : gmap loc cell) : option string :=
  match option_lines opts m with
  | None => None
  | Some lines =>
      Some (description +:+ nl
            +:+ "Version: " +:+ version +:+ nl
            +:+ nl +:+ "-h, --help       write help to console" +:+ nl
            +:+ "-v, --version    write the version to console" +:+ nl
            +:+ lines +:+ nl)
  end.

(** The text behind an output event, for the table the call works with. *)
Definition event_text (opts : options) (e : event) : option string :=
  match e with
  | WroteHelp description version defaults => help_text description version opts defaults
  | WroteVersion version => Some ("Version: " +:+ version +:+ nl)
  end.

End HelpText.

End argz.

Import argz.

(** * A floating-point library to evaluate the model with

    It keeps the converted text as the value and never reports a range
    error. The properties below hold for every [StdFloat]; this one serves
    where a closed instance is evaluated. *)
Definition text_float : StdFloat :=
  {| double := string;
     double_zero := "0";
     strtod_value := fun s => s;
     strtod_erange := fun _ => false |}.

(** * Vocabulary of the properties *)

(** The flag texts the scan handles itself. *)
Definition builtin (str : string) : bool :=
  String.eqb str "h" || String.eqb str "help"
  || String.eqb str "v" || String.eqb str "version".

(** The options of the table a resolved identifier selects, in table order. *)
Definition selected (opts : options) (str : string) : options :=
  List.filter (fun x => String.eqb (id (ids x)) str) opts.

Definition is_bool (v : var) : bool :=
  match v with
  | ref_bool _ => true
  | _ => false
  end.

(** The location a binding refers to. *)
Definition slot (v : var) : loc :=
  match v with
  | ref_bool x | ref _ x | ref_opt _ x => x
  end.

(** The integer, unsigned and double types. *)
Definition numeric (T : ty) : bool :=
  match T with
  | Tstring | Tpath => false
  | _ => true
  end.

(** The standard conversion behind a numeric type, as [what()] names it. *)
Definition conversion (T : ty) : string :=
  match T with
  | Tdouble => "stod"
  | _ => "stol"
  end.

(** A token is non-numeric for [T] when, after white space and sign, no
    number of the grammar of [T]'s conversion starts: no decimal digit for
    the integer types; for [double] neither a digit, nor a point and a
    digit, nor INF or NAN. What follows a number is not looked at, so a
    token such as 12abc is numeric. *)
Definition non_numeric (T : ty) (str : string) : bool :=
  let r := snd (skip_sign (skip_space str)) in
  negb (match T with
        | Tdouble => strtod_start r
        | _ => starts_with_digit r
        end).

(** [argv] as [main] receives it: [argc] tokens, then the null pointer. *)
Definition main_argv (argc : Z) (argv : list (option string)) : Prop :=
  exists tokens : list string,
    argv = ((Some <$> tokens) ++ [None])%list /\ argc = Z.of_nat (length tokens).

Section Facts.
Context `{FP : StdFloat}.

(** The state an outcome leaves behind, when it is defined. *)
Definition final (o : outcome) : option state :=
  match o with
  | Returned s | Thrown _ s => Some s
  | Undefined => None
  end.

(** How many times the help text was written. *)
Fixpoint help_count (out : list event) : nat :=
  match out with
  | [] => 0%nat
  | WroteHelp _ _ _ :: rest => S (help_count rest)
  | WroteVersion _ :: rest => help_count rest
  end.

(** Some token of [argv] is [-h], [--h], [-help] or [--help]. *)
Definition asks_help (argv : list (option string)) : bool :=
  existsb (fun c =>
             match c with
             | Some bytes =>
                 match flag_text (c_str bytes) with
                 | Some str => String.eqb str "h" || String.eqb str "help"
                 | None => false
                 end
             | None => false
             end) argv.

(** The state a step carries, when it has one. *)
Definition step_state (st : step) : option state :=
  match st with
  | Next _ s => Some s
  | Stop o => final o
  end.

(** The passes [parse] makes through its outer loop. *)
Definition parse_passes (opts : options) (argc : Z) (argv : list (option string))
    (s : state) : option nat :=
  if argc =? 1 then Some 0%nat else passes (Z.to_nat argc) opts argc argv 1 s.

End Facts.

(** * Vocabulary of the further properties *)

Section MoreFacts.
Context `{FP : StdFloat}.


(** The exceptions that leave [parse]. *)
Definition parse_exception (e : exn) : Prop :=
  e = runtime_error "Expected '-'"
  \/ e = runtime_error "Invalid alias flag '-' for: "
  \/ e = invalid_argument "stol" \/ e = out_of_range "stol"
  \/ e = invalid_argument "stod" \/ e = out_of_range "stod".

(** The number an integer variable holds. *)
Definition int_value (T : ty) (a : val (FP := FP)) : option Z :=
  match T, a with
  | Tint32, Vint32 n | Tuint32, Vuint32 n
  | Tint64, Vint64 n | Tuint64, Vuint64 n => Some n
  | _, _ => None
  end.

End MoreFacts.

(** The least and the greatest value of an integer type. *)
Definition int_bounds (T : ty) : option (Z * Z) :=
  match T with
  | Tint32 => Some (- 2 ^ 31, 2 ^ 31 - 1)
  | Tuint32 => Some (0, 2 ^ 32 - 1)
  | Tint64 => Some (- 2 ^ 63, 2 ^ 63 - 1)
  | Tuint64 => Some (0, 2 ^ 64 - 1)
  | _ => None
  end.

(** The values whose text, as [detail::to_string] gives it, is a token
    that [detail::parse] turns back into the value: a number in the range
    of its type and in that of [long], a string or a path without a NUL
    character. A [double] is not among them. *)
Definition restorable `{StdFloat} (T : ty) (a : val) : bool :=
  match T, a with
  | Tint32, Vint32 n => (- 2 ^ 31 <=? n) && (n <=? 2 ^ 31 - 1)
  | Tuint32, Vuint32 n => (0 <=? n) && (n <=? 2 ^ 32 - 1)
  | Tint64, Vint64 n => (LONG_MIN <=? n) && (n <=? LONG_MAX)
  | Tuint64, Vuint64 n => (0 <=? n) && (n <=? LONG_MAX)
  | Tstring, Vstring s => String.eqb (c_str s) s
  | Tpath, Vpath (Path s) => String.eqb (c_str s) s
  | _, _ => false
  end.

(** Two bindings are for the same type of variable. *)
Definition same_type (v v' : var) : Prop :=
  match v, v' with
  | ref_bool _, ref_bool _ => True
  | ref T _, ref T' _ | ref_opt T _, ref_opt T' _ => T = T'
  | _, _ => False
  end.

(** Options of the table that are bound to the same variable bind it at
    the same type, as references to one object do. *)
Definition coherent (opts : options) : Prop :=
  forall o o', o ∈ opts -> o' ∈ opts ->
    slot (value o) = slot (value o') -> same_type (value o) (value o').

(** Some option of the table is bound to the location. *)
Definition bound (opts : options) (x : loc) : Prop :=
  exists o, o ∈ opts /\ slot (value o) = x.

(** * Sample inputs

    A table with two options of the same id, one with a single option, and
    a store in which both bound variables hold 0. *)
Definition option_of (name : string) (a : ascii) (v : var) : arg_t :=
  {| ids := {| id := name; alias := a |}; value := v; arg_help := "" |}.

Definition demo_about : about :=
  {| description := "demo"; version := "1.0"; print_help_when_no_options := false;
     printed_help := false; printed_version := false |}.

Definition demo_state (m : gmap loc (@cell text_float)) : @state text_float :=
  {| ctx := demo_about; mem := m; cout := [] |}.

Definition count_twice : options :=
  [option_of "count" "c" (ref Tint32 1); option_of "count" "n" (ref Tint32 2)].

Definition count_once : options := [option_of "count" "c" (ref Tint32 1)].

Definition zeros : gmap loc (@cell text_float) :=
  <[1%positive := Obj (Vint32 0)]> (<[2%positive := Obj (Vint32 0)]> ∅).

(** [std::to_string(double)] for [text_float]: the text kept as the value. *)
Definition text_to_string : @StdToString text_float := fun d => d.

(** A table with an integer, a boolean and an optional string option, a
    store for it, and a command line that asks for help and the version
    and sets two of the options. *)
Definition demo_table : options :=
  [option_of "count" "c" (ref Tint32 1);
   option_of "verbose" "V" (ref_bool 3);
   option_of "name" "n" (ref_opt Tstring 4)].

Definition demo_mem : gmap loc (@cell text_float) :=
  <[1%positive := Obj (Vint32 0)]>
    (<[3%positive := Obj (Vbool false)]> (<[4%positive := Opt None]> ∅)).


Definition demo_argv : list (option string) :=
  [Some "prog"; Some "-h"; Some "--verbose"; Some "-v"; Some "-c"; Some "5"; None].

(** * Properties *)

Section Properties.
Context `{FP : StdFloat}.
Implicit Types (opts : options) (argv : list (option string)) (s : state).
Implicit Types (m : gmap loc cell) (i argc : Z) (str : string).

Lemma dispatch_index opts str argv i s i' s' :
  dispatch opts str argv i s = Next i' s' -> i <= i'.
Proof.
  revert i s. induction opts as [|x rest IH]; intros i s; simpl.
  - intros [= <- _]. lia.
  - destruct (String.eqb (id (ids x)) str); [|apply IH].
    destruct (value x) as [b|T y|T y]; [apply IH| |];
      (destruct (argv_at argv (i + 1)) as [c|]; [|discriminate];
       destruct (detail.parse c _ (mem s)); [|discriminate];
       intros E; apply IH in E; lia).
Qed.

Lemma dispatch_io opts str argv i s s' :
  step_state (dispatch opts str argv i s) = Some s' ->
  ctx s' = ctx s /\ cout s' = cout s.
Proof.
  revert i s. induction opts as [|x rest IH]; intros i s; simpl.
  - intros [= <-]. done.
  - destruct (String.eqb (id (ids x)) str); [|apply IH].
    destruct (value x) as [b|T y|T y];
      [intros E; apply IH in E; exact E| |];
      (destruct (argv_at argv (i + 1)) as [c|]; [|discriminate];
       destruct (detail.parse c _ (mem s));
       [intros E; apply IH in E; exact E | intros [= <-]; done]).
Qed.

Lemma loop_body_index opts argv i s i' s' :
  loop_body opts argv i s = Next i' s' -> i < i'.
Proof.
  unfold loop_body.
  destruct (argv_at argv i) as [[bytes|]|]; try discriminate.
  destruct (flag_text (c_str bytes)) as [str|]; [|discriminate].
  destruct (_ || _); [intros [= <- _]; lia|].
  destruct (_ || _); [intros [= <- _]; lia|].
  destruct (resolve opts str) as [str'|]; [|discriminate].
  destruct (is_empty str'); [discriminate|].
  destruct (dispatch opts str' argv i s) as [j t|] eqn:D; [|discriminate].
  intros [= <- _]. apply dispatch_index in D. lia.
Qed.

Lemma loop_finishes fuel opts argc argv i s :
  (Z.to_nat (argc - i) <= fuel)%nat ->
  exists o, loop fuel opts argc argv i s = Some o.
Proof.
  revert i s. induction fuel as [|fuel IH]; intros i s Hf; simpl.
  - destruct (i <? argc) eqn:E; [apply Z.ltb_lt in E; lia | eauto].
  - destruct (i <? argc) eqn:E; [|eauto]. apply Z.ltb_lt in E.
    destruct (loop_body opts argv i s) as [i' s'|o] eqn:B; [|eauto].
    apply loop_body_index in B. apply IH. lia.
Qed.

Lemma loop_more_fuel fuel fuel' opts argc argv i s o :
  loop fuel opts argc argv i s = Some o -> (fuel <= fuel')%nat ->
  loop fuel' opts argc argv i s = Some o.
Proof.
  revert fuel' i s. induction fuel as [|fuel IH]; intros fuel' i s; simpl.
  - destruct (i <? argc) eqn:E; [discriminate|]. intros H _.
    destruct fuel'; simpl; rewrite E; exact H.
  - destruct (i <? argc) eqn:E.
    + intros H Hle. destruct fuel' as [|fuel']; [lia|]. simpl. rewrite E.
      destruct (loop_body opts argv i s) as [i' s'|o']; [|exact H].
      apply IH; [exact H|lia].
    + intros H _. destruct fuel'; simpl; rewrite E; exact H.
Qed.

Lemma passes_bound fuel opts argc argv i s :
  (Z.to_nat (argc - i) <= fuel)%nat ->
  exists n, passes fuel opts argc argv i s = Some n /\ (n <= Z.to_nat (argc - i))%nat.
Proof.
  revert i s. induction fuel as [|fuel IH]; intros i s Hf; simpl.
  - destruct (i <? argc) eqn:E; [apply Z.ltb_lt in E; lia|].
    exists 0%nat. split; [done|lia].
  - destruct (i <? argc) eqn:E; [|exists 0%nat; split; [done|lia]].
    apply Z.ltb_lt in E.
    destruct (loop_body opts argv i s) as [i' s'|o] eqn:B.
    + apply loop_body_index in B.
      destruct (IH i' s') as (n & -> & Hn); [lia|].
      exists (S n). split; [done|lia].
    + exists 1%nat. split; [done|lia].
Qed.

Lemma help_count_app (l l' : list event) :
  help_count (l ++ l') = (help_count l + help_count l')%nat.
Proof.
  induction l as [|e l IH]; [done|]. destruct e; simpl; rewrite IH; done.
Qed.

Lemma asks_help_at argv i bytes str :
  asks_help argv = false ->
  argv_at argv i = Some (Some bytes) ->
  flag_text (c_str bytes) = Some str ->
  String.eqb str "h" || String.eqb str "help" = false.
Proof.
  intros Hno Hat Hflag.
  destruct (String.eqb str "h" || String.eqb str "help") eqn:E; [|done].
  assert (asks_help argv = true) as Hyes; [|congruence].
  apply existsb_exists. exists (Some bytes). split.
  - unfold argv_at in Hat. destruct (i <? 0); [discriminate|].
    apply list_elem_of_In. eapply list_elem_of_lookup_2. exact Hat.
  - rewrite Hflag. exact E.
Qed.

Lemma loop_body_no_help opts argv i s s' :
  asks_help argv = false ->
  step_state (loop_body opts argv i s) = Some s' ->
  help_count (cout s') = help_count (cout s)
  /\ printed_help (ctx s') = printed_help (ctx s).
Proof.
  intros Hno. unfold loop_body.
  destruct (argv_at argv i) as [[bytes|]|] eqn:Hat; try discriminate.
  destruct (flag_text (c_str bytes)) as [str|] eqn:Hflag; [|intros [= <-]; done].
  rewrite (asks_help_at _ _ _ _ Hno Hat Hflag).
  destruct (_ || _).
  { intros [= <-]. simpl. rewrite help_count_app. simpl. split; [lia|done]. }
  destruct (resolve opts str) as [str'|]; [|intros [= <-]; done].
  destruct (is_empty str'); [intros [= <-]; done|].
  destruct (dispatch opts str' argv i s) as [j t|o] eqn:D.
  - intros [= <-].
    destruct (dispatch_io opts str' argv i s t) as [-> ->]; [rewrite D|]; done.
  - intros Ho.
    destruct (dispatch_io opts str' argv i s s') as [-> ->]; [rewrite D|]; done.
Qed.

Lemma loop_no_help fuel opts argc argv i s o s' :
  asks_help argv = false ->
  loop fuel opts argc argv i s = Some o ->
  final o = Some s' ->
  help_count (cout s') = help_count (cout s)
  /\ printed_help (ctx s') = printed_help (ctx s).
Proof.
  intros Hno. revert i s. induction fuel as [|fuel IH]; intros i s; simpl.
  - destruct (i <? argc); [discriminate|]. intros [= <-] [= <-]. done.
  - destruct (i <? argc); [|intros [= <-] [= <-]; done].
    destruct (loop_body opts argv i s) as [j t|o'] eqn:B.
    + intros L F. destruct (IH _ _ L F) as [-> ->].
      apply (loop_body_no_help opts argv i s t Hno). rewrite B. done.
    + intros [= <-] F.
      apply (loop_body_no_help opts argv i s s' Hno). rewrite B. exact F.
Qed.

Lemma builtin_false str :
  builtin str = false ->
  String.eqb str "h" || String.eqb str "help" = false
  /\ String.eqb str "v" || String.eqb str "version" = false.
Proof.
  unfold builtin. intros H.
  destruct (String.eqb str "h"), (String.eqb str "help"),
    (String.eqb str "v"), (String.eqb str "version"); done.
Qed.

(** A pass on a flag the scan does not handle itself is the inner loop on
    the resolved identifier, followed by [++i]. *)
Lemma loop_body_dispatch opts argv i s bytes str str' :
  argv_at argv i = Some (Some bytes) ->
  flag_text (c_str bytes) = Some str ->
  builtin str = false ->
  resolve opts str = Ok str' ->
  is_empty str' = false ->
  loop_body opts argv i s
  = match dispatch opts str' argv i s with
    | Next i' s' => Next (i' + 1) s'
    | Stop o => Stop o
    end.
Proof.
  intros Hat Hflag Hb Hr He. unfold loop_body.
  destruct (builtin_false str Hb) as [H1 H2].
  rewrite Hat, Hflag, H1, H2, Hr, He. done.
Qed.

Lemma resolve_long opts str :
  (2 <= String.length str)%nat -> resolve opts str = Ok str.
Proof.
  destruct str as [|a [|b r]]; simpl; intros H; try lia; done.
Qed.

Lemma long_not_empty str : (2 <= String.length str)%nat -> is_empty str = false.
Proof. destruct str; simpl; [lia|done]. Qed.

Lemma dispatch_selected opts str argv i s :
  dispatch opts str argv i s = dispatch (selected opts str) str argv i s.
Proof.
  revert i s. induction opts as [|x rest IH]; intros i s; [done|].
  unfold selected in *. simpl.
  destruct (String.eqb (id (ids x)) str) eqn:E; [|apply IH].
  simpl. rewrite E.
  destruct (value x) as [b|T y|T y]; [apply IH| |];
    (destruct (argv_at argv (i + 1)) as [c|]; [|done];
     destruct (detail.parse c _ (mem s)); [apply IH|done]).
Qed.

Lemma selected_nil opts str :
  (forall x, x ∈ opts -> id (ids x) <> str) -> selected opts str = [].
Proof.
  induction opts as [|x rest IH]; intros H; [done|].
  unfold selected in *. simpl.
  destruct (String.eqb (id (ids x)) str) eqn:E.
  - apply String.eqb_eq in E. exfalso. apply (H x); [left|done].
  - apply IH. intros y Hy. apply H. right. done.
Qed.

Lemma get_id_find opts a :
  get_id opts a
  = match List.find (fun x => Ascii.eqb (alias (ids x)) a) opts with
    | Some x => id (ids x)
    | None => ""
    end.
Proof.
  induction opts as [|x rest IH]; [done|]. simpl.
  destruct (Ascii.eqb (alias (ids x)) a); [done|apply IH].
Qed.

Lemma get_id_unknown opts a :
  (forall x, x ∈ opts -> alias (ids x) <> a) -> get_id opts a = "".
Proof.
  induction opts as [|x rest IH]; intros H; [done|]. simpl.
  destruct (Ascii.eqb (alias (ids x)) a) eqn:E.
  - apply Ascii.eqb_eq in E. exfalso. apply (H x); [left|done].
  - apply IH. intros y Hy. apply H. right. done.
Qed.

Lemma flag_text_empty token :
  flag_text token = Some "" -> token = "-" \/ token = "--".
Proof.
  unfold flag_text, strip_dash.
  destruct token as [|c [|c' r]]; [discriminate| |].
  - destruct (Ascii.eqb c "-") eqn:E; [|discriminate].
    apply Ascii.eqb_eq in E as ->. left. done.
  - destruct (Ascii.eqb c "-") eqn:E; [|discriminate].
    apply Ascii.eqb_eq in E as ->.
    destruct (Ascii.eqb c' "-") eqn:E'.
    + apply Ascii.eqb_eq in E' as ->. intros [= ->]. right. done.
    + discriminate.
Qed.

Lemma loop_passes fuel opts argc argv i s :
  passes fuel opts argc argv i s = None <-> loop fuel opts argc argv i s = None.
Proof.
  revert i s. induction fuel as [|fuel IH]; intros i s; simpl.
  - destruct (i <? argc); done.
  - destruct (i <? argc); [|done].
    destruct (loop_body opts argv i s) as [i' s'|o]; [|done].
    rewrite <- IH. destruct (passes fuel opts argc argv i' s'); done.
Qed.

Lemma loop_step fuel opts argc argv i s :
  i < argc ->
  loop (S fuel) opts argc argv i s
  = match loop_body opts argv i s with
    | Next i' s' => loop fuel opts argc argv i' s'
    | Stop o => Some o
    end.
Proof. intros H. simpl. apply Z.ltb_lt in H. rewrite H. done. Qed.

Lemma loop_done fuel opts argc argv i s :
  argc <= i -> loop fuel opts argc argv i s = Some (Returned s).
Proof.
  intros H. apply Z.ltb_ge in H. destruct fuel; simpl; rewrite H; done.
Qed.

Lemma parse_scans opts argc argv s :
  2 <= argc ->
  parse opts argc argv s
  = match loop_body opts argv 1 s with
    | Next i' s' => loop (Nat.pred (Z.to_nat argc)) opts argc argv i' s'
    | Stop o => Some o
    end.
Proof.
  intros H. unfold parse.
  destruct (argc =? 1) eqn:E; [apply Z.eqb_eq in E; lia|].
  replace (Z.to_nat argc) with (S (Nat.pred (Z.to_nat argc))) at 1 by lia.
  apply loop_step. lia.
Qed.

Lemma set_mem_id s : set_mem (mem s) s = s.
Proof. destruct s; done. Qed.

Lemma selected_match opts str o :
  o ∈ selected opts str -> String.eqb (id (ids o)) str = true.
Proof.
  unfold selected. intros H. apply list_elem_of_In, filter_In in H. tauto.
Qed.

(** The inner loop at an option it selects that is not boolean. *)
Lemma dispatch_value o rest str argv i s :
  String.eqb (id (ids o)) str = true ->
  is_bool (value o) = false ->
  dispatch (o :: rest) str argv i s
  = match argv_at argv (i + 1) with
    | None => Stop Undefined
    | Some c =>
        match detail.parse c (value o) (mem s) with
        | Ok m => dispatch rest str argv (i + 1) (set_mem m s)
        | Throw e => Stop (Thrown e s)
        end
    end.
Proof.
  intros E Hb. simpl. rewrite E. destruct (value o); [discriminate|done|done].
Qed.

Lemma parse_ref_eq bytes T x m :
  detail.parse (Some bytes) (ref T x) m
  = (a <~ detail.convert T (c_str bytes) ;; Ok (<[x := Obj a]> m)).
Proof. done. Qed.

(** The optional arm, with the frame of [temp] computed away. *)
Lemma parse_opt_eq bytes T x m :
  detail.parse (Some bytes) (ref_opt T x) m
  = (a <~ detail.convert T (c_str bytes) ;; Ok (<[x := Opt (Some a)]> m)).
Proof.
  simpl. unfold detail.parse_ref.
  destruct (detail.convert T (c_str bytes)) as [a|e]; simpl; [|done].
  unfold detail.get. rewrite lookup_insert_eq. done.
Qed.

Lemma convert_non_numeric T str :
  numeric T = true -> non_numeric T str = true ->
  detail.convert T str = Throw (invalid_argument (conversion T)).
Proof.
  unfold non_numeric. intros Hn Hs. apply negb_true_iff in Hs.
  destruct T; try discriminate; simpl;
    try (unfold stol, strtol;
         destruct (skip_sign (skip_space str)) as [neg r];
         simpl in Hs; rewrite Hs; done).
  unfold stod, strtod_converts. rewrite Hs. done.
Qed.

Lemma convert_numeric_prefix T str e :
  numeric T = true -> non_numeric T str = false ->
  detail.convert T str = Throw e -> e = out_of_range (conversion T).
Proof.
  unfold non_numeric. intros Hn Hs. apply negb_false_iff in Hs.
  destruct T; try discriminate; simpl;
    try (unfold stol, strtol;
         destruct (skip_sign (skip_space str)) as [neg r];
         simpl in Hs; rewrite Hs;
         destruct (_ && _); simpl; [discriminate|intros [= <-]; done]).
  unfold stod, strtod_converts. rewrite Hs.
  destruct (strtod_erange str); simpl; [intros [= <-]; done|discriminate].
Qed.

Lemma parse_frame c v m m' x :
  detail.parse c v m = Ok m' -> slot v <> x -> m' !! x = m !! x.
Proof.
  destruct c as [bytes|]; [|intros [= <-]; done].
  destruct v as [b|T y|T y].
  - intros [= <-] Hne. apply lookup_insert_ne. done.
  - rewrite parse_ref_eq.
    destruct (detail.convert T (c_str bytes)); simpl; [|discriminate].
    intros [= <-] Hne. apply lookup_insert_ne. done.
  - rewrite parse_opt_eq.
    destruct (detail.convert T (c_str bytes)); simpl; [|discriminate].
    intros [= <-] Hne. apply lookup_insert_ne. done.
Qed.

Lemma dispatch_frame opts str argv i s s' x :
  step_state (dispatch opts str argv i s) = Some s' ->
  (forall o, o ∈ selected opts str -> slot (value o) <> x) ->
  mem s' !! x = mem s !! x.
Proof.
  revert i s. induction opts as [|o rest IH]; intros i s; simpl.
  - intros [= <-]. done.
  - unfold selected in *. simpl.
    destruct (String.eqb (id (ids o)) str) eqn:E; [|apply IH].
    intros Hd Hsel.
    assert (slot (value o) <> x) as Hne by (apply Hsel; left).
    assert (forall o', o' ∈ List.filter (fun x => String.eqb (id (ids x)) str) rest ->
                       slot (value o') <> x) as Hrest
      by (intros o' Ho'; apply Hsel; right; exact Ho').
    destruct (value o) as [b|T y|T y] eqn:V.
    + rewrite (IH _ _ Hd Hrest). simpl. apply lookup_insert_ne. exact Hne.
    + destruct (argv_at argv (i + 1)) as [c|]; [|discriminate].
      destruct (detail.parse c (ref T y) (mem s)) as [m|e] eqn:P.
      * rewrite (IH _ _ Hd Hrest). simpl. eapply parse_frame; eassumption.
      * injection Hd as <-. done.
    + destruct (argv_at argv (i + 1)) as [c|]; [|discriminate].
      destruct (detail.parse c (ref_opt T y) (mem s)) as [m|e] eqn:P.
      * rewrite (IH _ _ Hd Hrest). simpl. eapply parse_frame; eassumption.
      * injection Hd as <-. done.
Qed.

Lemma loop_body_frame opts argv i s s' x :
  step_state (loop_body opts argv i s) = Some s' ->
  (forall bytes str str' o,
     argv_at argv i = Some (Some bytes) ->
     flag_text (c_str bytes) = Some str ->
     resolve opts str = Ok str' ->
     o ∈ selected opts str' -> slot (value o) <> x) ->
  mem s' !! x = mem s !! x.
Proof.
  unfold loop_body.
  destruct (argv_at argv i) as [[bytes|]|]; try discriminate.
  destruct (flag_text (c_str bytes)) as [str|] eqn:Hflag; [|intros [= <-]; done].
  destruct (_ || _); [intros [= <-]; done|].
  destruct (_ || _); [intros [= <-]; done|].
  destruct (resolve opts str) as [str'|] eqn:Hr; [|intros [= <-]; done].
  destruct (is_empty str'); [intros [= <-]; done|].
  intros Hd Hsel.
  apply (dispatch_frame opts str' argv i s s' x).
  - destruct (dispatch opts str' argv i s); exact Hd.
  - intros o Ho. exact (Hsel bytes str str' o eq_refl Hflag Hr Ho).
Qed.

Lemma main_argv_cell argc argv i :
  main_argv argc argv -> 0 <= i <= argc -> exists c, argv_at argv i = Some c.
Proof.
  intros (tokens & -> & ->) Hi. unfold argv_at.
  destruct (i <? 0) eqn:E; [apply Z.ltb_lt in E; lia|].
  apply lookup_lt_is_Some.
  rewrite length_app, length_fmap. simpl. lia.
Qed.

Lemma main_argv_token argc argv i :
  main_argv argc argv -> 0 <= i < argc -> exists token, argv_at argv i = Some (Some token).
Proof.
  intros (tokens & -> & ->) Hi. unfold argv_at.
  destruct (i <? 0) eqn:E; [apply Z.ltb_lt in E; lia|].
  destruct (lookup_lt_is_Some_2 tokens (Z.to_nat i)) as [token Ht]; [lia|].
  exists token. rewrite lookup_app_l by (rewrite length_fmap; lia).
  rewrite list_lookup_fmap, Ht. done.
Qed.

(** With at most one option selected and the next cell inside the array,
    the inner loop reads no cell outside it and moves at most one place. *)
Lemma dispatch_defined opts str argv i s :
  (length (selected opts str) <= 1)%nat ->
  (exists c, argv_at argv (i + 1) = Some c) ->
  dispatch opts str argv i s <> Stop Undefined
  /\ (forall i' s', dispatch opts str argv i s = Next i' s' -> i' <= i + 1).
Proof.
  intros Hone [c Hc]. rewrite dispatch_selected.
  destruct (selected opts str) as [|o [|o' rest]] eqn:Hsel; simpl in Hone; [| |lia].
  - simpl. split; [discriminate|]. intros i' s' [= <- _]. lia.
  - assert (String.eqb (id (ids o)) str = true) as E
      by (apply (selected_match opts); rewrite Hsel; left).
    simpl. rewrite E.
    destruct (value o) as [b|T y|T y].
    + split; [discriminate|]. intros i' s' [= <- _]. lia.
    + rewrite Hc. destruct (detail.parse c (ref T y) (mem s));
        (split; [discriminate|]); [intros i' s' [= <- _]; lia|discriminate].
    + rewrite Hc. destruct (detail.parse c (ref_opt T y) (mem s));
        (split; [discriminate|]); [intros i' s' [= <- _]; lia|discriminate].
Qed.

Lemma loop_defined fuel opts argc argv i s o :
  main_argv argc argv ->
  (forall str, (length (selected opts str) <= 1)%nat) ->
  0 <= i ->
  loop fuel opts argc argv i s = Some o ->
  o <> Undefined.
Proof.
  intros Hmain Hone. revert i s. induction fuel as [|fuel IH]; intros i s Hi; simpl.
  - destruct (i <? argc); [discriminate|]. intros [= <-]. discriminate.
  - destruct (i <? argc) eqn:E; [|intros [= <-]; discriminate].
    apply Z.ltb_lt in E.
    destruct (main_argv_token argc argv i Hmain) as [token Ht]; [lia|].
    unfold loop_body. rewrite Ht.
    destruct (flag_text (c_str token)) as [str|]; [|intros [= <-]; discriminate].
    destruct (_ || _); [apply IH; lia|].
    destruct (_ || _); [apply IH; lia|].
    destruct (resolve opts str) as [str'|]; [|intros [= <-]; discriminate].
    destruct (is_empty str'); [intros [= <-]; discriminate|].
    destruct (dispatch_defined opts str' argv i s (Hone str')) as [Hd Hb].
    { apply (main_argv_cell argc); [exact Hmain|lia]. }
    destruct (dispatch opts str' argv i s) as [j t|o'] eqn:D.
    + apply IH. apply dispatch_index in D. lia.
    + intros [= <-]. congruence.
Qed.

Lemma no_alias (a : ascii) (opts : options) :
  forallb (fun x => negb (Ascii.eqb (alias (ids x)) a)) opts = true ->
  forall x, x ∈ opts -> alias (ids x) <> a.
Proof.
  intros H x Hx E. rewrite forallb_forall in H.
  apply list_elem_of_In, H in Hx. apply Ascii.eqb_eq in E. rewrite E in Hx. done.
Qed.

Lemma no_id (str : string) (opts : options) :
  selected opts str = [] -> forall x, x ∈ opts -> id (ids x) <> str.
Proof.
  intros H x Hx E. apply String.eqb_eq in E.
  assert (x ∈ selected opts str) as Hs.
  { unfold selected. apply list_elem_of_In, filter_In. split; [apply list_elem_of_In; done|done]. }
  rewrite H in Hs. apply elem_of_nil in Hs. done.
Qed.

(** C1, as the code has it. The inner loop does not stop at the first
    option whose id equals the flag: when two options that are not boolean
    share the id and the flag is followed by two cells, the cell after the
    flag is coerced into the first option and, if that succeeds, the cell
    after that into the second. When both coercions succeed both options
    are bound and the scan goes on three places further; when one throws,
    the call ends with that exception and with the bindings made before
    it; no ambiguity is reported. A null pointer in the second place (the
    end of main's array) leaves the second variable as it was. *)
Theorem duplicate_ids_are_all_bound opts str argv i s a b c1 c2 :
  selected opts str = [a; b] ->
  is_bool (value a) = false ->
  is_bool (value b) = false ->
  argv_at argv (i + 1) = Some c1 ->
  argv_at argv (i + 2) = Some c2 ->
  dispatch opts str argv i s
  = match detail.parse c1 (value a) (mem s) with
    | Throw e => Stop (Thrown e s)
    | Ok m1 =>
        match detail.parse c2 (value b) m1 with
        | Throw e => Stop (Thrown e (set_mem m1 s))
        | Ok m2 => Next (i + 2) (set_mem m2 s)
        end
    end
  /\ (forall flag str0,
        argv_at argv i = Some (Some flag) ->
        flag_text (c_str flag) = Some str0 ->
        builtin str0 = false ->
        resolve opts str0 = Ok str ->
        is_empty str = false ->
        loop_body opts argv i s
        = match detail.parse c1 (value a) (mem s) with
          | Throw e => Stop (Thrown e s)
          | Ok m1 =>
              match detail.parse c2 (value b) m1 with
              | Throw e => Stop (Thrown e (set_mem m1 s))
              | Ok m2 => Next (i + 3) (set_mem m2 s)
              end
          end)
  /\ (c2 = None ->
      dispatch opts str argv i s
      = match detail.parse c1 (value a) (mem s) with
        | Throw e => Stop (Thrown e s)
        | Ok m1 => Next (i + 2) (set_mem m1 s)
        end).
Proof.
  intros Hsel Ha Hb H1 H2.
  assert (dispatch opts str argv i s
          = match detail.parse c1 (value a) (mem s) with
            | Throw e => Stop (Thrown e s)
            | Ok m1 =>
                match detail.parse c2 (value b) m1 with
                | Throw e => Stop (Thrown e (set_mem m1 s))
                | Ok m2 => Next (i + 2) (set_mem m2 s)
                end
            end) as D.
  { rewrite dispatch_selected, Hsel.
    rewrite dispatch_value;
      [|apply (selected_match opts); rewrite Hsel; left|exact Ha].
    rewrite H1. destruct (detail.parse c1 (value a) (mem s)) as [m1|e]; [|done].
    rewrite dispatch_value;
      [|apply (selected_match opts); rewrite Hsel; right; left|exact Hb].
    replace (i + 1 + 1) with (i + 2) by lia. rewrite H2. simpl.
    destruct (detail.parse c2 (value b) m1); done. }
  split; [exact D|]. split.
  - intros flag str0 Hat Hflag Hbi Hr He.
    rewrite (loop_body_dispatch opts argv i s flag str0 str Hat Hflag Hbi Hr He), D.
    destruct (detail.parse c1 (value a) (mem s)) as [m1|e]; [|done].
    destruct (detail.parse c2 (value b) m1); [|done].
    f_equal. lia.
  - intros ->. rewrite D.
    destruct (detail.parse c1 (value a) (mem s)) as [m1|e]; done.
Qed.

(** C2, as the code has it. When the scan reaches, at the last index, a
    flag that selects one option, not boolean, the token read for it is
    the cell after the last token. With main's array that cell is the null
    pointer: the coercion does nothing and the call returns without error,
    the state unchanged. With an array that ends at the last token the
    read is outside the array and the behaviour is undefined. No exception
    is thrown in either case. *)
Theorem missing_value_is_not_an_error opts argc argv s flag str str' o fuel :
  argv_at argv (argc - 1) = Some (Some flag) ->
  flag_text (c_str flag) = Some str ->
  builtin str = false ->
  resolve opts str = Ok str' ->
  is_empty str' = false ->
  selected opts str' = [o] ->
  is_bool (value o) = false ->
  (argv_at argv argc = Some None ->
   loop (S fuel) opts argc argv (argc - 1) s = Some (Returned s))
  /\ (argv_at argv argc = None ->
      loop (S fuel) opts argc argv (argc - 1) s = Some Undefined).
Proof.
  intros Hat Hflag Hb Hr He Hsel Ho.
  assert (loop_body opts argv (argc - 1) s
          = match argv_at argv argc with
            | None => Stop Undefined
            | Some c =>
                match detail.parse c (value o) (mem s) with
                | Ok m => Next (argc + 1) (set_mem m s)
                | Throw e => Stop (Thrown e s)
                end
            end) as B.
  { rewrite (loop_body_dispatch opts argv _ s flag str str' Hat Hflag Hb Hr He).
    rewrite dispatch_selected, Hsel, dispatch_value;
      [|apply (selected_match opts); rewrite Hsel; left|exact Ho].
    replace (argc - 1 + 1) with argc by lia.
    destruct (argv_at argv argc) as [c|]; [|done].
    destruct (detail.parse c (value o) (mem s)); [|done]. simpl. done. }
  split; intros Hend; rewrite loop_step, B, Hend by lia; [|done].
  simpl. rewrite set_mem_id. apply loop_done. lia.
Qed.

(** C3. When the scan reaches a token whose text after the dashes is
    empty (the token is then a dash or two dashes and nothing else; no
    alias is looked up), the loop is left at once: the call returns with
    the state it had reached, no exception is thrown and no later token is
    looked at, whatever the rest of the array holds. In particular this is
    so for the first token after the program name. *)
Theorem empty_flag_ends_scan opts argc argv i s bytes fuel :
  i < argc ->
  argv_at argv i = Some (Some bytes) ->
  flag_text (c_str bytes) = Some "" ->
  (c_str bytes = "-" \/ c_str bytes = "--")
  /\ loop (S fuel) opts argc argv i s = Some (Returned s)
  /\ (i = 1 -> parse opts argc argv s = Some (Returned s)).
Proof.
  intros Hi Hat Hflag.
  assert (loop_body opts argv i s = Stop (Returned s)) as B.
  { unfold loop_body. rewrite Hat, Hflag. done. }
  split; [apply flag_text_empty; exact Hflag|]. split.
  - rewrite loop_step, B; done.
  - intros ->. rewrite parse_scans, B; [done|lia].
Qed.

(** C4. Coercing a token into an optional binding is the plain coercion
    for the same type followed by storing the result as a present value:
    when the plain coercion succeeds and leaves [v] in its variable, the
    optional one stores present [v]; when the plain one throws, the
    optional one throws the same exception. A null token changes nothing.
    In the scan, a pass that selects no option bound to a variable leaves
    that variable as it was (an absent optional stays absent), and the
    pass on the flag of an optional binding followed by the token makes it
    present with that value. *)
Theorem optional_coercion_wraps_plain T bytes y m0 :
  match detail.parse (Some bytes) (ref T y) m0 with
  | Ok m1 =>
      exists v,
        m1 !! y = Some (Obj v)
        /\ (forall x m,
              detail.parse (Some bytes) (ref_opt T x) m = Ok (<[x := Opt (Some v)]> m))
        /\ (forall opts str argv i s x o,
              selected opts str = [o] ->
              value o = ref_opt T x ->
              argv_at argv (i + 1) = Some (Some bytes) ->
              dispatch opts str argv i s
              = Next (i + 1) (set_mem (<[x := Opt (Some v)]> (mem s)) s))
  | Throw e => forall x m, detail.parse (Some bytes) (ref_opt T x) m = Throw e
  end
  /\ (forall v m, detail.parse None v m = Ok m)
  /\ (forall opts argv i s s' x,
        step_state (loop_body opts argv i s) = Some s' ->
        (forall token str str' o,
           argv_at argv i = Some (Some token) ->
           flag_text (c_str token) = Some str ->
           resolve opts str = Ok str' ->
           o ∈ selected opts str' -> slot (value o) <> x) ->
        mem s' !! x = mem s !! x).
Proof.
  split; [|split; [done|apply loop_body_frame]].
  rewrite parse_ref_eq.
  destruct (detail.convert T (c_str bytes)) as [v|e] eqn:C;
    cbv beta iota delta [result_bind].
  2: { intros x m. rewrite parse_opt_eq, C. done. }
  exists v. split; [apply lookup_insert_eq|]. split.
  - intros x m. rewrite parse_opt_eq, C. done.
  - intros opts str argv i s x o Hsel Hv Hnext.
    rewrite dispatch_selected, Hsel, dispatch_value.
    + rewrite Hnext, Hv, parse_opt_eq, C. done.
    + apply (selected_match opts). rewrite Hsel. left.
    + rewrite Hv. done.
Qed.

(** C5, as the code has it. For an integer, unsigned or double binding,
    plain or optional, and a token in which no number starts (the token is
    non-numeric for the type), the coercion throws [std::invalid_argument]
    from the conversion and stores nothing. The scan lets it through: when
    a pass reaches a flag whose first selected option has such a binding
    and the next token is such a token, the call ends with that exception
    and with the state the pass started from, so the bound variable keeps
    its value. These are the only tokens refused in this way: a token in
    which a number starts is never an invalid argument, whatever follows
    the number; if its coercion throws at all, it is for the range. *)
Theorem malformed_number_propagates T x bytes m :
  numeric T = true ->
  non_numeric T (c_str bytes) = true ->
  detail.parse (Some bytes) (ref T x) m = Throw (invalid_argument (conversion T))
  /\ detail.parse (Some bytes) (ref_opt T x) m = Throw (invalid_argument (conversion T))
  /\ (forall opts argc argv i s flag str str' o rest fuel,
        i < argc ->
        argv_at argv i = Some (Some flag) ->
        flag_text (c_str flag) = Some str ->
        builtin str = false ->
        resolve opts str = Ok str' ->
        is_empty str' = false ->
        selected opts str' = o :: rest ->
        value o = ref T x \/ value o = ref_opt T x ->
        argv_at argv (i + 1) = Some (Some bytes) ->
        loop (S fuel) opts argc argv i s
        = Some (Thrown (invalid_argument (conversion T)) s))
  /\ (forall token e,
        non_numeric T (c_str token) = false ->
        detail.parse (Some token) (ref T x) m = Throw e
        \/ detail.parse (Some token) (ref_opt T x) m = Throw e ->
        e = out_of_range (conversion T)).
Proof.
  intros Hn Hs. pose proof (convert_non_numeric T (c_str bytes) Hn Hs) as C.
  assert (forall v, v = ref T x \/ v = ref_opt T x -> forall m',
            detail.parse (Some bytes) v m' = Throw (invalid_argument (conversion T))) as P.
  { intros v [-> | ->] m'; [rewrite parse_ref_eq|rewrite parse_opt_eq];
      rewrite C; done. }
  split; [apply P; left; done|split; [apply P; right; done|split]].
  - intros opts argc argv i s flag str str' o rest fuel Hi Hat Hflag Hb Hr He Hsel Hv Hnext.
    rewrite loop_step by done.
    rewrite (loop_body_dispatch opts argv i s flag str str' Hat Hflag Hb Hr He).
    rewrite dispatch_selected, Hsel.
    rewrite dispatch_value.
    + rewrite Hnext, (P _ Hv). done.
    + apply (selected_match opts). rewrite Hsel. left.
    + destruct Hv as [-> | ->]; done.
  - intros token e Ht.
    rewrite parse_ref_eq, parse_opt_eq.
    destruct (detail.convert T (c_str token)) as [a|e'] eqn:C'; simpl;
      [intros [|]; discriminate|].
    intros [[= <-] | [= <-]]; exact (convert_numeric_prefix T _ _ Hn Ht C').
Qed.

(** C6. Coercing a token into a boolean binding always succeeds and
    stores, in the bound variable, true when the token is exactly the four
    characters true and false for every other token; false, 1, True and
    the empty token all store false. *)
Theorem bool_coercion_is_literal_match x bytes m :
  exists b,
    detail.parse (Some bytes) (ref_bool x) m = Ok (<[x := Obj (Vbool b)]> m)
    /\ (<[x := Obj (Vbool b)]> m) !! x = Some (Obj (Vbool b))
    /\ (b = true <-> c_str bytes = "true")
    /\ detail.parse (Some "true") (ref_bool x) m = Ok (<[x := Obj (Vbool true)]> m)
    /\ detail.parse (Some "false") (ref_bool x) m = Ok (<[x := Obj (Vbool false)]> m)
    /\ detail.parse (Some "1") (ref_bool x) m = Ok (<[x := Obj (Vbool false)]> m)
    /\ detail.parse (Some "True") (ref_bool x) m = Ok (<[x := Obj (Vbool false)]> m)
    /\ detail.parse (Some "") (ref_bool x) m = Ok (<[x := Obj (Vbool false)]> m).
Proof.
  exists (String.eqb (c_str bytes) "true").
  repeat split; try apply String.eqb_eq; try done.
  apply lookup_insert_eq.
Qed.

(** C7. When the scan reaches a flag whose text after the dashes is one
    character, other than h and v, that no option of the table has as its
    alias, the call throws the runtime error of an invalid alias, with the
    state unchanged. Alias resolution is first match in table order:
    [get_id] gives the id of the first option whose alias is the
    character, and that id is what the flag resolves to when it is not
    empty. *)
Theorem unknown_alias_fails opts argc argv i s bytes a fuel :
  i < argc ->
  argv_at argv i = Some (Some bytes) ->
  flag_text (c_str bytes) = Some (String a "") ->
  a <> "h"%char -> a <> "v"%char ->
  (forall x, x ∈ opts -> alias (ids x) <> a) ->
  loop (S fuel) opts argc argv i s
  = Some (Thrown (runtime_error "Invalid alias flag '-' for: ") s)
  /\ (forall b,
        get_id opts b
        = match List.find (fun x => Ascii.eqb (alias (ids x)) b) opts with
          | Some x => id (ids x)
          | None => ""
          end)
  /\ (forall b x,
        List.find (fun x => Ascii.eqb (alias (ids x)) b) opts = Some x ->
        is_empty (id (ids x)) = false ->
        resolve opts (String b "") = Ok (id (ids x))).
Proof.
  intros Hi Hat Hflag Hh Hv Hno. split; [|split].
  - rewrite loop_step by done. unfold loop_body. rewrite Hat, Hflag.
    assert (String.eqb (String a "") "h" = false) as ->.
    { apply String.eqb_neq. congruence. }
    assert (String.eqb (String a "") "v" = false) as ->.
    { apply String.eqb_neq. congruence. }
    simpl. rewrite (get_id_unknown opts a Hno).
    destruct (Ascii.eqb a "h"), (Ascii.eqb a "v"); done.
  - apply get_id_find.
  - intros b x Hf He. unfold resolve. rewrite get_id_find, Hf, He. done.
Qed.

(** C8. With a token count of one, [parse] returns at once: when
    [print_help_when_no_options] is set the state is that of [help]
    ([printed_help] set, the help text written, variables untouched), and
    otherwise the state is the one it was called with (no output, no flag
    changed, no variable changed). Help that no token asked for comes from
    this path only: in any other call whose tokens hold no help flag, the
    number of help texts written and [printed_help] stay as they were. *)
Theorem parse_program_name_only opts argv s :
  parse opts 1 argv s
  = Some (Returned (if print_help_when_no_options (ctx s) then help opts s else s))
  /\ printed_help (ctx (help opts s)) = true
  /\ cout (help opts s)
     = (cout s ++ [WroteHelp (description (ctx s)) (version (ctx s)) (mem s)])%list
  /\ mem (help opts s) = mem s
  /\ (forall argc o s',
        parse opts argc argv s = Some o -> final o = Some s' ->
        asks_help argv = false ->
        (argc = 1 /\ print_help_when_no_options (ctx s) = true)
        \/ (help_count (cout s') = help_count (cout s)
            /\ printed_help (ctx s') = printed_help (ctx s))).
Proof.
  repeat split.
  intros argc o s'. unfold parse. destruct (argc =? 1) eqn:E.
  - apply Z.eqb_eq in E.
    destruct (print_help_when_no_options (ctx s)).
    + intros _ _ _. left. done.
    + intros [= <-] [= <-] _. right. done.
  - intros L F Hno. right. eapply loop_no_help; eassumption.
Qed.

(** C9. For every option table, token count, token array and starting
    state, [parse] ends with an outcome; its outer loop makes at most
    [argc - 1] passes (none when [argc <= 1]), which is below the length of
    the token sequence; more fuel than [argc] changes nothing; and every
    pass that goes on leaves the index strictly larger, also when it has
    consumed value tokens. On the array of [main], with a table in which
    no two options share an id, the outcome is a return or an exception:
    no cell outside the array is read. *)
Theorem parse_terminates opts argc argv s :
  exists o n,
    parse opts argc argv s = Some o
    /\ parse_passes opts argc argv s = Some n
    /\ Z.of_nat n <= Z.max 0 (argc - 1)
    /\ (forall fuel, (Z.to_nat argc <= fuel)%nat -> argc <> 1 ->
          loop fuel opts argc argv 1 s = Some o)
    /\ (forall i t i' t', loop_body opts argv i t = Next i' t' -> i < i')
    /\ (main_argv argc argv ->
        (forall str, (length (selected opts str) <= 1)%nat) ->
        o <> Undefined).
Proof.
  unfold parse, parse_passes. destruct (argc =? 1) eqn:E.
  - apply Z.eqb_eq in E. eexists _, 0%nat.
    split; [done|]. split; [done|]. split; [lia|]. split; [congruence|].
    split; [apply loop_body_index|discriminate].
  - destruct (loop_finishes (Z.to_nat argc) opts argc argv 1 s) as [o Ho]; [lia|].
    destruct (passes_bound (Z.to_nat argc) opts argc argv 1 s) as (n & Hn & Hb); [lia|].
    exists o, n.
    split; [exact Ho|]. split; [exact Hn|]. split; [lia|]. split; [|split].
    + intros fuel Hf _. eapply loop_more_fuel; [exact Ho|exact Hf].
    + apply loop_body_index.
    + intros Hmain Hone. eapply loop_defined; [exact Hmain|exact Hone| |exact Ho]. lia.
Qed.

(** C10. A flag whose text after the dashes has two characters or more, is
    neither help nor version and is the id of no option makes the scan go
    on at the next index with the state unchanged: no value token is
    consumed for it. So the call on program name, such a flag and a value
    that does not start with a dash throws the 'Expected -' runtime error
    at the value, state unchanged, while the call on program name and the
    flag alone returns without error or change. *)
Theorem unknown_long_flag_takes_no_value opts argv s prog flag value rest str :
  flag_text (c_str flag) = Some str ->
  (2 <= String.length str)%nat ->
  builtin str = false ->
  (forall x, x ∈ opts -> id (ids x) <> str) ->
  strip_dash (c_str value) = None ->
  (forall i t, argv_at argv i = Some (Some flag) ->
     loop_body opts argv i t = Next (i + 1) t)
  /\ parse opts 3 (prog :: Some flag :: Some value :: rest) s
     = Some (Thrown (runtime_error "Expected '-'") s)
  /\ parse opts 2 (prog :: Some flag :: rest) s = Some (Returned s).
Proof.
  intros Hflag Hlen Hb Hno Hval.
  assert (forall argv' i t, argv_at argv' i = Some (Some flag) ->
            loop_body opts argv' i t = Next (i + 1) t) as B.
  { intros argv' i t Hat.
    rewrite (loop_body_dispatch opts argv' i t flag str str Hat Hflag Hb
               (resolve_long opts str Hlen) (long_not_empty str Hlen)).
    rewrite dispatch_selected, (selected_nil opts str Hno). done. }
  split; [apply B|split].
  - rewrite parse_scans, B by done. simpl.
    unfold loop_body, flag_text. simpl. rewrite Hval. done.
  - rewrite parse_scans, B by done. apply loop_done. lia.
Qed.

End Properties.

(** * Instances on the sample inputs *)

(** C1 fails as stated: with two options of id count and the tokens
    --count 7 9, the call returns with the second option's variable changed
    from 0 to 9, the second value token having been consumed for it. *)
Lemma duplicate_ids_second_is_bound :
  parse count_twice 4 [Some "prog"; Some "--count"; Some "7"; Some "9"; None]
    (demo_state zeros)
  = Some (Returned (demo_state
            (<[2%positive := Obj (Vint32 9)]> (<[1%positive := Obj (Vint32 7)]> zeros))))
  /\ zeros !! 2%positive = Some (Obj (Vint32 0)).
Proof. split; vm_compute; reflexivity. Qed.

(** [duplicate_ids_are_all_bound] on that table, with the tokens
    --count 7 9, which bind both options, and with --count 7 abc, where
    the second coercion throws after the first option was bound. *)
Lemma duplicate_ids_witness :
  selected count_twice "count" = count_twice
  /\ dispatch count_twice "count"
       [Some "prog"; Some "--count"; Some "7"; Some "9"; None] 1 (demo_state zeros)
     = Next 3 (demo_state
                 (<[2%positive := Obj (Vint32 9)]> (<[1%positive := Obj (Vint32 7)]> zeros)))
  /\ dispatch count_twice "count"
       [Some "prog"; Some "--count"; Some "7"; Some "abc"; None] 1 (demo_state zeros)
     = Stop (Thrown (invalid_argument "stol")
               (demo_state (<[1%positive := Obj (Vint32 7)]> zeros))).
Proof.
  split; [reflexivity|]. split.
  - refine (eq_trans (proj1 (duplicate_ids_are_all_bound count_twice "count"
              [Some "prog"; Some "--count"; Some "7"; Some "9"; None] 1 (demo_state zeros)
              (option_of "count" "c" (ref Tint32 1)) (option_of "count" "n" (ref Tint32 2))
              (Some "7") (Some "9") _ _ _ _ _)) _); vm_compute; reflexivity.
  - refine (eq_trans (proj1 (duplicate_ids_are_all_bound count_twice "count"
              [Some "prog"; Some "--count"; Some "7"; Some "abc"; None] 1 (demo_state zeros)
              (option_of "count" "c" (ref Tint32 1)) (option_of "count" "n" (ref Tint32 2))
              (Some "7") (Some "abc") _ _ _ _ _)) _); vm_compute; reflexivity.
Defined.

(** C2 fails as stated: with --count as the last token of main's array
    the call returns normally, the state unchanged; with an array of the
    two tokens alone the read of the value is outside the array. Nothing
    is thrown in either case. *)
Lemma flag_without_value_returns :
  parse count_once 2 [Some "prog"; Some "--count"; None] (demo_state zeros)
  = Some (Returned (demo_state zeros))
  /\ parse count_once 2 [Some "prog"; Some "--count"] (demo_state zeros)
     = Some Undefined.
Proof. split; vm_compute; reflexivity. Qed.

(** [missing_value_is_not_an_error] on that call. *)
Lemma missing_value_witness :
  argv_at [Some "prog"; Some "--count"; None] 2 = Some None
  /\ loop 1 count_once 2 [Some "prog"; Some "--count"; None] 1 (demo_state zeros)
     = Some (Returned (demo_state zeros)).
Proof.
  split; [reflexivity|].
  refine (proj1 (missing_value_is_not_an_error count_once 2
            [Some "prog"; Some "--count"; None] (demo_state zeros)
            "--count" "count" "count" (option_of "count" "c" (ref Tint32 1)) 0
            _ _ _ _ _ _ _) _); vm_compute; reflexivity.
Defined.

(** [empty_flag_ends_scan] on the tokens -- junk: the token junk, which
    would be refused for its missing dash, is never looked at. *)
Lemma empty_flag_witness :
  flag_text (c_str "--") = Some ""
  /\ parse count_once 3 [Some "prog"; Some "--"; Some "junk"; None] (demo_state zeros)
     = Some (Returned (demo_state zeros)).
Proof.
  split; [reflexivity|].
  refine (proj2 (proj2 (empty_flag_ends_scan count_once 3
            [Some "prog"; Some "--"; Some "junk"; None] 1 (demo_state zeros) "--" 0
            _ _ _)) _); [lia|reflexivity|reflexivity|reflexivity].
Defined.

(** C5 fails as stated: tokens that are not numbers but start with one
    are taken without error. A signed 32-bit binding stores 12 for 12abc,
    1 for 1.9 and 0 for 0x1A, and the call with --count 12abc returns. *)
Lemma malformed_tokens_are_accepted :
  detail.parse (Some "12abc") (ref Tint32 1) zeros
  = Ok (<[1%positive := Obj (Vint32 12)]> zeros)
  /\ detail.parse (Some "1.9") (ref Tint32 1) zeros
     = Ok (<[1%positive := Obj (Vint32 1)]> zeros)
  /\ detail.parse (Some "0x1A") (ref_opt Tint32 1) zeros
     = Ok (<[1%positive := Opt (Some (Vint32 0))]> zeros)
  /\ parse count_once 3 [Some "prog"; Some "--count"; Some "12abc"; None]
       (demo_state zeros)
     = Some (Returned (demo_state (<[1%positive := Obj (Vint32 12)]> zeros))).
Proof. repeat split; vm_compute; reflexivity. Qed.

(** [malformed_number_propagates] on the token abc and a signed 32-bit
    binding, plain and optional, and on the call with the tokens -c abc. *)
Lemma malformed_number_witness :
  non_numeric Tint32 (c_str "abc") = true
  /\ detail.parse (Some "abc") (ref Tint32 1) zeros = Throw (invalid_argument "stol")
  /\ detail.parse (Some "abc") (ref_opt Tint32 1) zeros = Throw (invalid_argument "stol")
  /\ parse count_once 3 [Some "prog"; Some "-c"; Some "abc"; None] (demo_state zeros)
     = Some (Thrown (invalid_argument "stol") (demo_state zeros)).
Proof.
  split; [reflexivity|].
  destruct (malformed_number_propagates Tint32 1 "abc" zeros eq_refl eq_refl)
    as (H1 & H2 & H3 & _).
  split; [exact H1|]. split; [exact H2|].
  refine (H3 count_once 3 [Some "prog"; Some "-c"; Some "abc"; None] 1 (demo_state zeros)
            "-c" "c" "count" (option_of "count" "c" (ref Tint32 1)) [] 2%nat
            _ _ _ _ _ _ _ _ _); try (vm_compute; reflexivity).
  left; reflexivity.
Defined.

(** [unknown_alias_fails] on the token -x with a table whose aliases are
    c and n. *)
Lemma unknown_alias_witness :
  get_id count_twice "x" = ""
  /\ parse count_twice 2 [Some "prog"; Some "-x"; None] (demo_state zeros)
     = Some (Thrown (runtime_error "Invalid alias flag '-' for: ") (demo_state zeros)).
Proof.
  split; [reflexivity|].
  refine (proj1 (unknown_alias_fails count_twice 2 [Some "prog"; Some "-x"; None] 1
            (demo_state zeros) "-x" "x" 1 _ _ _ _ _ _));
    [lia|reflexivity|reflexivity|discriminate|discriminate|].
  apply no_alias. reflexivity.
Defined.

(** [unknown_long_flag_takes_no_value] on the flag --verbose, with and
    without a value after it. *)
Lemma unknown_long_flag_witness :
  selected count_twice "verbose" = []
  /\ parse count_twice 3 [Some "prog"; Some "--verbose"; Some "value"; None] (demo_state zeros)
     = Some (Thrown (runtime_error "Expected '-'") (demo_state zeros))
  /\ parse count_twice 2 [Some "prog"; Some "--verbose"; None] (demo_state zeros)
     = Some (Returned (demo_state zeros)).
Proof.
  split; [reflexivity|].
  refine (proj2 (unknown_long_flag_takes_no_value count_twice [] (demo_state zeros)
            (Some "prog") "--verbose" "value" [None] "verbose" _ _ _ _ _));
    [reflexivity|simpl; lia|reflexivity|apply no_id; reflexivity|reflexivity].
Defined.

(** The scan of --count 42 with a signed 32-bit binding stores 42. *)
Example count_42 :
  parse count_once 3 [Some "prog"; Some "--count"; Some "42"; None] (demo_state zeros)
  = Some (Returned (demo_state (<[1%positive := Obj (Vint32 42)]> zeros))).
Proof. vm_compute. reflexivity. Qed.

(** What follows a number is ignored by the conversion, and the narrowing
    to 32 bits wraps. *)
Example trailing_text_and_wrap :
  detail.parse (Some "12abc") (ref Tint32 1) zeros
  = Ok (<[1%positive := Obj (Vint32 12)]> zeros)
  /\ detail.parse (Some "4294967297") (ref Tint32 1) zeros
     = Ok (<[1%positive := Obj (Vint32 1)]> zeros)
  /\ detail.parse (Some "-1") (ref Tuint32 1) zeros
     = Ok (<[1%positive := Obj (Vuint32 4294967295)]> zeros).
Proof. repeat split; vm_compute; reflexivity. Qed.

(** With the two options of id count and only one value before the null
    pointer, the second option reads the null pointer and keeps its 0. *)
Example duplicate_ids_one_value :
  parse count_twice 3 [Some "prog"; Some "--count"; Some "7"; None] (demo_state zeros)
  = Some (Returned (demo_state (<[1%positive := Obj (Vint32 7)]> zeros))).
Proof. vm_compute. reflexivity. Qed.

(** An absent optional becomes present with the converted value, from the
    token alone and in the scan of -c 42. *)
Example optional_count :
  detail.parse (Some "42") (ref_opt Tint32 1) ({[1%positive := Opt None]} : gmap loc (@cell text_float))
  = Ok {[1%positive := Opt (Some (Vint32 42))]}
  /\ parse [option_of "count" "c" (ref_opt Tint32 1)] 3
       [Some "prog"; Some "-c"; Some "42"; None] (demo_state {[1%positive := Opt None]})
     = Some (Returned (demo_state {[1%positive := Opt (Some (Vint32 42))]})).
Proof. split; vm_compute; reflexivity. Qed.

(** * Further properties

    The scan, the coercion and the help text beyond the properties above. *)

Section More.
Context `{FP : StdFloat}.
Implicit Types (opts : options) (argv : list (option string)) (s : state).
Implicit Types (m : gmap loc cell) (i argc : Z) (str : string).

(** A relation between states that holds across every pass holds across
    the loop and across the call. *)
Lemma loop_relates (R : state -> state -> Prop) opts argc argv :
  (forall s, R s s) ->
  (forall a b c, R a b -> R b c -> R a c) ->
  (forall i s s', step_state (loop_body opts argv i s) = Some s' -> R s s') ->
  forall fuel i s o s',
    loop fuel opts argc argv i s = Some o -> final o = Some s' -> R s s'.
Proof.
  intros Hrefl Htrans Hpass fuel.
  induction fuel as [|fuel IH]; intros i s o s'; simpl.
  - destruct (i <? argc); [discriminate|]. intros [= <-] [= <-]. apply Hrefl.
  - destruct (i <? argc); [|intros [= <-] [= <-]; apply Hrefl].
    destruct (loop_body opts argv i s) as [j t|o'] eqn:B.
    + intros L F. apply (Htrans s t s'); [|eapply IH; eassumption].
      apply (Hpass i). rewrite B. done.
    + intros [= <-] F. apply (Hpass i). rewrite B. exact F.
Qed.

Lemma parse_relates (R : state -> state -> Prop) opts argc argv s o s' :
  (forall s, R s s) ->
  (forall a b c, R a b -> R b c -> R a c) ->
  (forall s, R s (help opts s)) ->
  (forall i s s', step_state (loop_body opts argv i s) = Some s' -> R s s') ->
  parse opts argc argv s = Some o -> final o = Some s' -> R s s'.
Proof.
  intros Hrefl Htrans Hhelp Hpass. unfold parse.
  destruct (argc =? 1).
  - intros [= <-] [= <-].
    destruct (print_help_when_no_options (ctx s)); [apply Hhelp|apply Hrefl].
  - apply loop_relates; assumption.
Qed.





(** X9. A call changes no variable other than those the options of its table
    are bound to. *)
Theorem unbound_variables_are_untouched opts argc argv s o s' x :
  parse opts argc argv s = Some o ->
  final o = Some s' ->
  ~ bound opts x ->
  mem s' !! x = mem s !! x.
Proof.
  intros Hp Hf Hx.
  apply (parse_relates (fun s s' => mem s' !! x = mem s !! x)
           opts argc argv s o s'); try assumption.
  - done.
  - intros a b c H1 H2. congruence.
  - done.
  - intros i t t' Hpass. apply (loop_body_frame opts argv i t t' x Hpass).
    intros token str str' o' _ _ _ Ho' Hs. apply Hx. exists o'. split; [|exact Hs].
    unfold selected in Ho'. apply list_elem_of_In, filter_In in Ho'.
    apply list_elem_of_In. tauto.
Qed.

Lemma convert_exception T str e :
  detail.convert T str = Throw e ->
  numeric T = true
  /\ (e = invalid_argument (conversion T) \/ e = out_of_range (conversion T)).
Proof.
  destruct T; simpl; try discriminate;
    try (unfold stol; destruct (strtol str) as [n|];
         [destruct (_ && _); simpl; [discriminate|]|];
         simpl; intros [= <-]; tauto).
  unfold stod. destruct (strtod_converts str);
    [destruct (strtod_erange str); simpl; [|discriminate]|];
    simpl; intros [= <-]; tauto.
Qed.

Lemma parse_throw c v m e :
  detail.parse c v m = Throw e ->
  exists bytes T x,
    c = Some bytes
    /\ (v = ref T x \/ v = ref_opt T x)
    /\ detail.convert T (c_str bytes) = Throw e.
Proof.
  destruct c as [bytes|]; [|discriminate].
  destruct v as [b|T x|T x]; [discriminate| |].
  - rewrite parse_ref_eq.
    destruct (detail.convert T (c_str bytes)) as [a|e'] eqn:C; [discriminate|].
    simpl. intros [= <-]. exists bytes, T, x. tauto.
  - rewrite parse_opt_eq.
    destruct (detail.convert T (c_str bytes)) as [a|e'] eqn:C; [discriminate|].
    simpl. intros [= <-]. exists bytes, T, x. tauto.
Qed.

(** X11. Only the numeric bindings can fail to take a token, and only with
    the exception of their conversion: the null token, and the boolean,
    string and path bindings, never throw. *)
Theorem coercion_fails_only_on_numbers c v m e :
  detail.parse c v m = Throw e ->
  exists bytes T x,
    c = Some bytes
    /\ (v = ref T x \/ v = ref_opt T x)
    /\ numeric T = true
    /\ (e = invalid_argument (conversion T) \/ e = out_of_range (conversion T)).
Proof.
  intros P. destruct (parse_throw c v m e P) as (bytes & T & x & Hc & Hv & C).
  exists bytes, T, x. destruct (convert_exception T _ _ C). tauto.
Qed.

Lemma parse_exception_conversion T e :
  e = invalid_argument (conversion T) \/ e = out_of_range (conversion T) ->
  parse_exception e.
Proof. unfold parse_exception. destruct T; simpl; tauto. Qed.

Lemma dispatch_exception opts str argv i s e s' :
  dispatch opts str argv i s = Stop (Thrown e s') -> parse_exception e.
Proof.
  revert i s. induction opts as [|x rest IH]; intros i s; simpl; [discriminate|].
  destruct (String.eqb (id (ids x)) str); [|apply IH].
  destruct (value x) as [b|T y|T y]; [apply IH| |];
    (destruct (argv_at argv (i + 1)) as [c|]; [|discriminate];
     destruct (detail.parse c _ (mem s)) as [m|e'] eqn:P; [apply IH|];
     intros [= <- _];
     destruct (parse_throw _ _ _ _ P) as (? & T' & ? & _ & _ & C);
     exact (parse_exception_conversion T' _ (proj2 (convert_exception T' _ _ C)))).
Qed.

Lemma resolve_exception opts str e :
  resolve opts str = Throw e -> e = runtime_error "Invalid alias flag '-' for: ".
Proof.
  unfold resolve. destruct str as [|a [|b r]]; try discriminate.
  destruct (get_id opts a) as [|c r] eqn:G; simpl; [|discriminate].
  intros [= <-]. done.
Qed.

(** X10. The exceptions a call can end with: the two runtime errors of the
    scan (a token without a dash, an unknown alias) and the invalid
    argument and out of range errors of the two numeric conversions. *)
Theorem parse_throws_only_these opts argc argv s e s' :
  parse opts argc argv s = Some (Thrown e s') -> parse_exception e.
Proof.
  unfold parse. destruct (argc =? 1); [discriminate|].
  generalize (Z.to_nat argc) as fuel, 1 as i. intros fuel. revert s.
  induction fuel as [|fuel IH]; intros s i; simpl.
  - destruct (i <? argc); discriminate.
  - destruct (i <? argc); [|discriminate].
    destruct (loop_body opts argv i s) as [j t|o] eqn:B; [apply IH|].
    intros [= ->]. revert B. unfold loop_body.
    destruct (argv_at argv i) as [[bytes|]|]; try discriminate.
    destruct (flag_text (c_str bytes)) as [str|].
    2: { intros [= <- _]. unfold parse_exception. tauto. }
    destruct (_ || _); [discriminate|].
    destruct (_ || _); [discriminate|].
    destruct (resolve opts str) as [str'|e'] eqn:R.
    2: { intros [= <- _]. apply resolve_exception in R as ->.
         unfold parse_exception. tauto. }
    destruct (is_empty str'); [discriminate|].
    destruct (dispatch opts str' argv i s) as [j t|o] eqn:D; [discriminate|].
    intros [= ->]. eapply dispatch_exception. exact D.
Qed.

(** X1. A flag that selects one option, bound to a [bool], sets that variable
    to true and takes no value: the scan goes on at the next token,
    whatever that token is. *)
Theorem boolean_flag_takes_no_value opts argv i s flag str str' o b :
  argv_at argv i = Some (Some flag) ->
  flag_text (c_str flag) = Some str ->
  builtin str = false ->
  resolve opts str = Ok str' ->
  is_empty str' = false ->
  selected opts str' = [o] ->
  value o = ref_bool b ->
  loop_body opts argv i s
  = Next (i + 1) (set_mem (<[b := Obj (Vbool true)]> (mem s)) s).
Proof.
  intros Hat Hflag Hb Hr He Hsel Hv.
  rewrite (loop_body_dispatch opts argv i s flag str str' Hat Hflag Hb Hr He).
  rewrite dispatch_selected, Hsel. simpl.
  rewrite (selected_match opts str' o) by (rewrite Hsel; left).
  rewrite Hv. done.
Qed.

(** X2. A flag that selects one option, not bound to a [bool], takes exactly
    the next cell as its value: when the coercion succeeds the scan goes
    on two places further with the store the coercion gives, and when it
    throws the call ends with that exception and the state unchanged. *)
Theorem value_flag_takes_one_value opts argv i s flag str str' o c :
  argv_at argv i = Some (Some flag) ->
  flag_text (c_str flag) = Some str ->
  builtin str = false ->
  resolve opts str = Ok str' ->
  is_empty str' = false ->
  selected opts str' = [o] ->
  is_bool (value o) = false ->
  argv_at argv (i + 1) = Some c ->
  loop_body opts argv i s
  = match detail.parse c (value o) (mem s) with
    | Ok m => Next (i + 2) (set_mem m s)
    | Throw e => Stop (Thrown e s)
    end.
Proof.
  intros Hat Hflag Hb Hr He Hsel Hv Hc.
  rewrite (loop_body_dispatch opts argv i s flag str str' Hat Hflag Hb Hr He).
  rewrite dispatch_selected, Hsel, dispatch_value;
    [|apply (selected_match opts); rewrite Hsel; left|exact Hv].
  rewrite Hc. destruct (detail.parse c (value o) (mem s)); [|done].
  simpl. f_equal. lia.
Qed.


(** The inner loop reads [argv] only after the index of the flag. *)
Lemma dispatch_ext opts str argv argv' i s :
  (forall j, i < j -> argv_at argv j = argv_at argv' j) ->
  dispatch opts str argv i s = dispatch opts str argv' i s.
Proof.
  revert i s. induction opts as [|x rest IH]; intros i s Hj; [done|]. simpl.
  destruct (String.eqb (id (ids x)) str); [|apply IH; exact Hj].
  destruct (value x) as [b|T y|T y]; [apply IH; exact Hj| |];
    (rewrite <- (Hj (i + 1)) by lia;
     destruct (argv_at argv (i + 1)) as [c|]; [|done];
     destruct (detail.parse c _ (mem s)); [|done];
     apply IH; intros j Hlt; apply Hj; lia).
Qed.


Lemma argv_at_insert argv i j c :
  0 <= i -> (Z.to_nat i < length argv)%nat ->
  argv_at (<[Z.to_nat i := c]> argv) j
  = if j =? i then Some c else argv_at argv j.
Proof.
  intros Hi Hlen. unfold argv_at.
  destruct (j =? i) eqn:E.
  - apply Z.eqb_eq in E as ->.
    destruct (i <? 0) eqn:E'; [apply Z.ltb_lt in E'; lia|].
    apply list_lookup_insert_eq. exact Hlen.
  - apply Z.eqb_neq in E. destruct (j <? 0) eqn:E'; [done|].
    apply Z.ltb_ge in E'. apply list_lookup_insert_ne. lia.
Qed.

(** X4. One dash or two make no difference: with the same text after them,
    a pass on the token with one dash and a pass on the token with two
    give the same result. *)
Theorem one_dash_or_two opts argv i s one two text :
  0 <= i -> (Z.to_nat i < length argv)%nat ->
  c_str one = String "-" text ->
  c_str two = String "-" (String "-" text) ->
  strip_dash text = None ->
  loop_body opts (<[Z.to_nat i := Some one]> argv) i s
  = loop_body opts (<[Z.to_nat i := Some two]> argv) i s.
Proof.
  intros Hi Hlen H1 H2 Ht.
  assert (flag_text (c_str one) = Some text) as F1.
  { rewrite H1. unfold flag_text. simpl. rewrite Ht. done. }
  assert (flag_text (c_str two) = Some text) as F2.
  { rewrite H2. unfold flag_text. simpl. done. }
  assert (forall j, i < j ->
            argv_at (<[Z.to_nat i := Some one]> argv) j
            = argv_at (<[Z.to_nat i := Some two]> argv) j) as Hj.
  { intros j Hlt. rewrite !argv_at_insert by done.
    destruct (j =? i) eqn:E; [apply Z.eqb_eq in E; lia|done]. }
  unfold loop_body at 1 2.
  rewrite !argv_at_insert, Z.eqb_refl, F1, F2 by done.
  destruct (_ || _); [done|]. destruct (_ || _); [done|].
  destruct (resolve opts text) as [str'|]; [|done].
  destruct (is_empty str'); [done|].
  rewrite (dispatch_ext opts str' _ _ i s Hj). done.
Qed.


(** X14. A token coerced into a binding replaces what an earlier token left
    there: the result does not depend on the earlier token. *)
Theorem later_value_replaces_earlier c1 bytes v m m1 :
  detail.parse c1 v m = Ok m1 ->
  detail.parse (Some bytes) v m1 = detail.parse (Some bytes) v m.
Proof.
  destruct c1 as [b1|]; [|intros [= <-]; done].
  destruct v as [b|T x|T x].
  - intros [= <-]. simpl. rewrite insert_insert_eq. done.
  - rewrite !parse_ref_eq.
    destruct (detail.convert T (c_str b1)); simpl; [|discriminate]. intros [= <-].
    destruct (detail.convert T (c_str bytes)); simpl; [|done].
    rewrite insert_insert_eq. done.
  - rewrite !parse_opt_eq.
    destruct (detail.convert T (c_str b1)); simpl; [|discriminate]. intros [= <-].
    destruct (detail.convert T (c_str bytes)); simpl; [|done].
    rewrite insert_insert_eq. done.
Qed.

Lemma parse_writes c v m m' :
  detail.parse c v m = Ok m' ->
  m' = m \/ exists a, m' = <[slot v := a]> m.
Proof.
  destruct c as [bytes|]; [|intros [= <-]; tauto]. right. revert H.
  destruct v as [b|T x|T x].
  - intros [= <-]. eexists. done.
  - rewrite parse_ref_eq. destruct (detail.convert T (c_str bytes)); simpl; [|discriminate].
    intros [= <-]. eexists. done.
  - rewrite parse_opt_eq. destruct (detail.convert T (c_str bytes)); simpl; [|discriminate].
    intros [= <-]. eexists. done.
Qed.

Lemma parse_insert c v m x a :
  slot v <> x ->
  detail.parse c v (<[x := a]> m)
  = match detail.parse c v m with
    | Ok m' => Ok (<[x := a]> m')
    | Throw e => Throw e
    end.
Proof.
  intros Hne. destruct c as [bytes|]; [|done].
  destruct v as [b|T y|T y]; simpl in Hne.
  - simpl. rewrite insert_insert_ne by done. done.
  - rewrite !parse_ref_eq. destruct (detail.convert T (c_str bytes)); simpl; [|done].
    rewrite insert_insert_ne by done. done.
  - rewrite !parse_opt_eq. destruct (detail.convert T (c_str bytes)); simpl; [|done].
    rewrite insert_insert_ne by done. done.
Qed.

(** X15. Coercions into different variables do not interfere: done in either
    order they give the same store. *)
Theorem coercions_commute c1 c2 v1 v2 m m1 m12 :
  slot v1 <> slot v2 ->
  detail.parse c1 v1 m = Ok m1 ->
  detail.parse c2 v2 m1 = Ok m12 ->
  exists m2,
    detail.parse c2 v2 m = Ok m2 /\ detail.parse c1 v1 m2 = Ok m12.
Proof.
  intros Hne P1 P2.
  destruct (parse_writes _ _ _ _ P1) as [-> | [a ->]].
  - exists m12. split; [exact P2|].
    destruct (parse_writes _ _ _ _ P2) as [-> | [b ->]]; [exact P1|].
    rewrite parse_insert, P1 by done. done.
  - rewrite parse_insert in P2 by congruence.
    destruct (detail.parse c2 v2 m) as [m2|] eqn:P2'; [|discriminate].
    injection P2 as <-. exists m2. split; [done|].
    destruct (parse_writes _ _ _ _ P2') as [-> | [b ->]]; [exact P1|].
    rewrite parse_insert, P1 by done.
    rewrite insert_insert_ne by congruence. done.
Qed.

Lemma mod_sub_self a M : M <> 0 -> (a mod M - a) mod M = 0.
Proof.
  intros HM. rewrite (Z.mod_eq a M) by done.
  replace (a - M * (a / M) - a) with (- (a / M) * M) by ring.
  apply Z.mod_mul. done.
Qed.

(** X12. An integer binding takes what [stol] reads, narrowed to its type
    without a range check: the stored number lies in the type's range, is
    the number read when that lies in the range, and differs from it by a
    multiple of the size of the range otherwise. *)
Theorem integer_coercion_wraps T lo hi x bytes m m' :
  int_bounds T = Some (lo, hi) ->
  detail.parse (Some bytes) (ref T x) m = Ok m' ->
  exists n a k,
    stol (c_str bytes) = Ok n
    /\ m' = <[x := Obj a]> m
    /\ int_value T a = Some k
    /\ lo <= k <= hi
    /\ (k - n) mod (hi - lo + 1) = 0
    /\ (lo <= n <= hi -> k = n).
Proof.
  intros Hb. rewrite parse_ref_eq.
  destruct T; try discriminate; injection Hb as <- <-; simpl;
    (destruct (stol (c_str bytes)) as [n|]; simpl; [|discriminate]);
    intros [= <-]; exists n; eexists; eexists;
    (split; [done|]); (split; [done|]); (split; [done|]);
    unfold wrap_signed, wrap_unsigned.
  - change (2 ^ 32) with 4294967296. change (2 ^ (32 - 1)) with 2147483648.
    change (2 ^ 31) with 2147483648.
    pose proof (Z.mod_pos_bound (n + 2147483648) 4294967296 eq_refl).
    pose proof (mod_sub_self (n + 2147483648) 4294967296).
    split; [lia|]. split.
    + replace ((n + 2147483648) mod 4294967296 - 2147483648 - n)
        with ((n + 2147483648) mod 4294967296 - (n + 2147483648)) by lia.
      apply H0. done.
    + intros Hn. rewrite Z.mod_small by lia. lia.
  - change (2 ^ 32) with 4294967296.
    pose proof (Z.mod_pos_bound n 4294967296 eq_refl).
    split; [lia|]. split.
    + replace (4294967296 - 1 - 0 + 1) with 4294967296 by lia.
      apply mod_sub_self. done.
    + intros Hn. apply Z.mod_small. lia.
  - change (2 ^ 64) with 18446744073709551616.
    change (2 ^ (64 - 1)) with 9223372036854775808.
    change (2 ^ 63) with 9223372036854775808.
    pose proof (Z.mod_pos_bound (n + 9223372036854775808) 18446744073709551616 eq_refl).
    pose proof (mod_sub_self (n + 9223372036854775808) 18446744073709551616).
    split; [lia|]. split.
    + replace ((n + 9223372036854775808) mod 18446744073709551616
               - 9223372036854775808 - n)
        with ((n + 9223372036854775808) mod 18446744073709551616
              - (n + 9223372036854775808)) by lia.
      replace (9223372036854775808 - 1 - - 9223372036854775808 + 1)
        with 18446744073709551616 by lia.
      apply H0. done.
    + intros Hn. rewrite Z.mod_small by lia. lia.
  - change (2 ^ 64) with 18446744073709551616.
    pose proof (Z.mod_pos_bound n 18446744073709551616 eq_refl).
    split; [lia|]. split.
    + replace (18446744073709551616 - 1 - 0 + 1) with 18446744073709551616 by lia.
      apply mod_sub_self. done.
    + intros Hn. apply Z.mod_small. lia.
Qed.

Lemma digits_of_uint_acc u acc :
  digits (Zpos acc) (NilEmpty.string_of_uint u) = Zpos (Pos.of_uint_acc u acc).
Proof.
  revert acc. induction u; intros acc; simpl; [done|..];
    rewrite <- IHu; f_equal;
    match goal with
    | |- context [Z.of_nat (nat_of_ascii ?c)] =>
        let v := eval vm_compute in (Z.of_nat (nat_of_ascii c)) in
        change (Z.of_nat (nat_of_ascii c)) with v
    end; lia.
Qed.

Lemma digits_of_uint u :
  digits 0 (NilEmpty.string_of_uint u) = Z.of_N (Pos.of_uint u).
Proof.
  induction u; simpl; [done|exact IHu|..]; apply (digits_of_uint_acc u).
Qed.

(** The text of a decimal number that is not empty: a digit first, no
    white space, no sign, no NUL. *)
Lemma uint_text u :
  u <> Decimal.Nil ->
  let t := NilEmpty.string_of_uint u in
  starts_with_digit t = true /\ skip_space t = t /\ skip_sign t = (false, t).
Proof. destruct u; simpl; done. Qed.

Lemma c_str_uint u : c_str (NilEmpty.string_of_uint u) = NilEmpty.string_of_uint u.
Proof. induction u; simpl; [done|..]; rewrite IHu; done. Qed.

Lemma c_str_to_string n : c_str (to_string_Z n) = to_string_Z n.
Proof.
  unfold to_string_Z, NilZero.string_of_int, NilZero.string_of_uint.
  destruct (Z.to_int n) as [u|u]; destruct u; simpl; try done;
    rewrite c_str_uint; done.
Qed.

(** [strtol] reads back the decimal text of an integer. *)
Lemma strtol_to_string n : strtol (to_string_Z n) = Some n.
Proof.
  unfold to_string_Z. destruct n as [|p|p]; [done| |].
  - unfold Z.to_int, NilZero.string_of_int, NilZero.string_of_uint.
    pose proof (Unsigned.to_uint_nonnil p) as Hn.
    pose proof (Unsigned.of_to p) as Hv.
    destruct (uint_text _ Hn) as (Hd & Hs & Hg).
    destruct (Pos.to_uint p) eqn:E; [done|..];
      rewrite <- E in *; unfold strtol; rewrite Hs, Hg, Hd, digits_of_uint, Hv; done.
  - unfold Z.to_int, NilZero.string_of_int, NilZero.string_of_uint.
    pose proof (Unsigned.to_uint_nonnil p) as Hn.
    pose proof (Unsigned.of_to p) as Hv.
    destruct (uint_text _ Hn) as (Hd & Hs & Hg).
    assert (strtol (String "-" (NilEmpty.string_of_uint (Pos.to_uint p)))
            = Some (Zneg p)) as R.
    { unfold strtol. simpl. rewrite Hd, digits_of_uint, Hv. done. }
    destruct (Pos.to_uint p) eqn:E; [done|..]; rewrite <- E in *; exact R.
Qed.

Lemma stol_to_string n :
  stol (to_string_Z n)
  = if (LONG_MIN <=? n) && (n <=? LONG_MAX) then Ok n else Throw (out_of_range "stol").
Proof. unfold stol. rewrite strtol_to_string. done. Qed.

(** X13. The decimal text of a number outside the range of [long] is
    refused by every integer binding, plain or optional, with the out of
    range error of [stol]. An unsigned 64-bit variable is therefore not
    given a value above [LONG_MAX] by the decimal text of that value; it
    takes it from the text of the negative number that wraps to it. *)
Theorem beyond_long_is_out_of_range T lo hi x n m :
  int_bounds T = Some (lo, hi) ->
  n < LONG_MIN \/ LONG_MAX < n ->
  detail.parse (Some (to_string_Z n)) (ref T x) m = Throw (out_of_range "stol")
  /\ detail.parse (Some (to_string_Z n)) (ref_opt T x) m = Throw (out_of_range "stol")
  /\ (LONG_MAX < n <= 2 ^ 64 - 1 ->
      detail.parse (Some (to_string_Z (n - 2 ^ 64))) (ref Tuint64 x) m
      = Ok (<[x := Obj (Vuint64 n)]> m)).
Proof.
  intros Hb Hn.
  assert (stol (to_string_Z n) = Throw (out_of_range "stol")) as S.
  { rewrite stol_to_string.
    destruct (LONG_MIN <=? n) eqn:E1; [|done].
    destruct (n <=? LONG_MAX) eqn:E2; [|done].
    apply Z.leb_le in E1, E2. lia. }
  split; [|split].
  - rewrite parse_ref_eq, c_str_to_string.
    destruct T; try discriminate; simpl; rewrite S; done.
  - rewrite parse_opt_eq, c_str_to_string.
    destruct T; try discriminate; simpl; rewrite S; done.
  - intros Hr. rewrite parse_ref_eq, c_str_to_string. simpl.
    rewrite stol_to_string.
    unfold LONG_MIN, LONG_MAX in *.
    change (2 ^ 63) with 9223372036854775808 in *.
    change (2 ^ 64) with 18446744073709551616 in *.
    destruct (_ && _) eqn:E.
    + simpl. unfold wrap_unsigned. change (2 ^ 64) with 18446744073709551616.
      do 4 f_equal.
      replace (n - 18446744073709551616) with (n + (-1) * 18446744073709551616) by lia.
      rewrite Z.mod_add by lia. apply Z.mod_small. lia.
    + apply andb_false_iff in E as [E | E];
        [apply Z.leb_gt in E | apply Z.leb_gt in E]; lia.
Qed.

Lemma loop_ext fuel opts argc argv argv' i s :
  (forall j, i <= j -> argv_at argv j = argv_at argv' j) ->
  loop fuel opts argc argv i s = loop fuel opts argc argv' i s.
Proof.
  revert i s. induction fuel as [|fuel IH]; intros i s Hj; simpl; [done|].
  destruct (i <? argc); [|done].
  assert (loop_body opts argv i s = loop_body opts argv' i s) as ->.
  { unfold loop_body. rewrite <- (Hj i) by lia.
    destruct (argv_at argv i) as [[bytes|]|]; try done.
    destruct (flag_text (c_str bytes)) as [str|]; [|done].
    destruct (_ || _); [done|]. destruct (_ || _); [done|].
    destruct (resolve opts str) as [str'|]; [|done].
    destruct (is_empty str'); [done|].
    rewrite (dispatch_ext opts str' argv argv' i s); [done|].
    intros j Hlt. apply Hj. lia. }
  destruct (loop_body opts argv' i s) as [j t|o] eqn:B; [|done].
  apply IH. intros k Hk. apply Hj. apply loop_body_index in B. lia.
Qed.

(** X6. The program name is never looked at: two arrays that differ in their
    first cell only give the same outcome. *)
Theorem program_name_is_ignored opts argc name name' rest s :
  parse opts argc (name :: rest) s = parse opts argc (name' :: rest) s.
Proof.
  unfold parse. destruct (argc =? 1); [done|].
  apply loop_ext. intros j Hj. unfold argv_at.
  destruct (j <? 0); [done|].
  replace (Z.to_nat j) with (S (Z.to_nat (j - 1))) by lia. done.
Qed.

End More.

Section Text.
Context `{FP : StdFloat} {TS : @StdToString FP}.
Implicit Types (opts : options) (argv : list (option string)) (s : state).
Implicit Types (m : gmap loc cell) (i argc : Z) (str : string).

Lemma restorable_convert T a :
  restorable T a = true ->
  exists text, detail.render T a = Some text
               /\ detail.convert T (c_str text) = Ok a.
Proof.
  destruct T, a as [| | | | | | |[p]]; try discriminate; simpl; intros H.
  - apply andb_true_iff in H as [H1 H2]. apply Z.leb_le in H1, H2.
    change (2 ^ 31) with 2147483648 in *.
    eexists. split; [done|]. rewrite c_str_to_string, stol_to_string.
    unfold LONG_MIN, LONG_MAX. change (2 ^ 63) with 9223372036854775808.
    destruct (_ && _) eqn:E.
    + simpl. unfold wrap_signed. change (2 ^ (32 - 1)) with 2147483648.
      change (2 ^ 32) with 4294967296. rewrite Z.mod_small by lia.
      do 2 f_equal. lia.
    + apply andb_false_iff in E as [E | E];
        [apply Z.leb_gt in E | apply Z.leb_gt in E]; lia.
  - apply andb_true_iff in H as [H1 H2]. apply Z.leb_le in H1, H2.
    change (2 ^ 32) with 4294967296 in *.
    eexists. split; [done|]. rewrite c_str_to_string, stol_to_string.
    unfold LONG_MIN, LONG_MAX. change (2 ^ 63) with 9223372036854775808.
    destruct (_ && _) eqn:E.
    + simpl. unfold wrap_unsigned. change (2 ^ 32) with 4294967296.
      rewrite Z.mod_small by lia. done.
    + apply andb_false_iff in E as [E | E];
        [apply Z.leb_gt in E | apply Z.leb_gt in E]; lia.
  - eexists. split; [done|]. rewrite c_str_to_string, stol_to_string, H.
    apply andb_true_iff in H as [H1 H2]. apply Z.leb_le in H1, H2.
    unfold LONG_MIN, LONG_MAX in *. change (2 ^ 63) with 9223372036854775808 in *.
    simpl. unfold wrap_signed. change (2 ^ (64 - 1)) with 9223372036854775808.
    change (2 ^ 64) with 18446744073709551616. rewrite Z.mod_small by lia.
    do 2 f_equal. lia.
  - apply andb_true_iff in H as [H1 H2]. apply Z.leb_le in H1, H2.
    unfold LONG_MAX in *. change (2 ^ 63) with 9223372036854775808 in *.
    eexists. split; [done|]. rewrite c_str_to_string, stol_to_string.
    unfold LONG_MIN, LONG_MAX. change (2 ^ 63) with 9223372036854775808.
    destruct (_ && _) eqn:E.
    + simpl. unfold wrap_unsigned. change (2 ^ 64) with 18446744073709551616.
      rewrite Z.mod_small by lia. done.
    + apply andb_false_iff in E as [E | E];
        [apply Z.leb_gt in E | apply Z.leb_gt in E]; lia.
  - apply String.eqb_eq in H. eexists. split; [done|]. rewrite H. done.
  - apply String.eqb_eq in H. eexists. split; [done|]. rewrite H. done.
Qed.

(** X16. Text and back: for a variable that holds a restorable value, plain or
    as the value of an optional, the text [detail::to_string] gives for
    its binding is a token that [detail::parse] accepts for the same
    binding, and the store after it is the store before. *)
Theorem to_string_then_parse T x a m :
  restorable T a = true ->
  (m !! x = Some (Obj a) ->
   exists text,
     detail.to_string (ref T x) m = Some text
     /\ detail.parse (Some text) (ref T x) m = Ok m)
  /\ (m !! x = Some (Opt (Some a)) ->
      exists text,
        detail.to_string (ref_opt T x) m = Some text
        /\ detail.parse (Some text) (ref_opt T x) m = Ok m).
Proof.
  intros Hr. destruct (restorable_convert T a Hr) as (text & Ht & Hc).
  split; intros Hm; exists text; simpl; rewrite Hm.
  - split; [exact Ht|]. unfold detail.parse_ref. rewrite Hc. simpl.
    rewrite insert_id by done. done.
  - split; [exact Ht|]. fold (detail.parse (Some text) (ref_opt T x) m).
    rewrite parse_opt_eq, Hc. simpl. rewrite insert_id by done. done.
Qed.

Lemma convert_render T str a :
  detail.convert T str = Ok a -> is_Some (detail.render T a).
Proof.
  destruct T; simpl;
    try (destruct (stol str); simpl; [|discriminate]);
    try (destruct (stod str); simpl; [|discriminate]);
    intros [= <-]; simpl; eauto.
Qed.

(** A write through a binding of the table leaves every binding of the
    table with a variable of its type. *)
Lemma write_keeps_text opts o c m m' :
  coherent opts -> o ∈ opts ->
  (forall o', o' ∈ opts -> is_Some (detail.to_string (value o') m)) ->
  detail.parse c (value o) m = Ok m'
  \/ (exists b, value o = ref_bool b /\ m' = <[b := Obj (Vbool true)]> m) ->
  forall o', o' ∈ opts -> is_Some (detail.to_string (value o') m').
Proof.
  intros Hco Ho Hm Hw o' Ho'.
  assert (m' = m \/
          exists a, m' = <[slot (value o) := a]> m
                    /\ forall v, same_type (value o) v -> slot v = slot (value o) ->
                                 is_Some (detail.to_string v (<[slot (value o) := a]> m)))
    as [-> | (a & -> & Ha)]; [|apply Hm; exact Ho'|].
  { destruct Hw as [P | (b & Hv & ->)].
    - destruct c as [bytes|]; [|injection P as <-; tauto]. right.
      destruct (value o) as [b|T x|T x] eqn:Hv.
      + injection P as <-. eexists. split; [done|].
        intros [b'|T' x'|T' x'] Hs Hx; simpl in Hs, Hx; try done; subst.
        simpl. rewrite lookup_insert_eq. eauto.
      + rewrite parse_ref_eq in P.
        destruct (detail.convert T (c_str bytes)) as [a|] eqn:C; [|discriminate].
        injection P as <-. eexists. split; [done|].
        intros [b'|T' x'|T' x'] Hs Hx; simpl in Hs, Hx; try done; subst.
        simpl. rewrite lookup_insert_eq. eapply convert_render. exact C.
      + rewrite parse_opt_eq in P.
        destruct (detail.convert T (c_str bytes)) as [a|] eqn:C; [|discriminate].
        injection P as <-. eexists. split; [done|].
        intros [b'|T' x'|T' x'] Hs Hx; simpl in Hs, Hx; try done; subst.
        simpl. rewrite lookup_insert_eq. eapply convert_render. exact C.
    - right. rewrite Hv. eexists. split; [done|].
      intros [b'|T' x'|T' x'] Hs Hx; simpl in Hs, Hx; try done; subst.
      simpl. rewrite lookup_insert_eq. eauto. }
  destruct (decide (slot (value o') = slot (value o))) as [E|E].
  - apply Ha; [|exact E]. apply Hco; [exact Ho|exact Ho'|congruence].
  - specialize (Hm o' Ho').
    destruct (value o') as [b'|T' x'|T' x']; simpl in *;
      rewrite lookup_insert_ne by congruence; exact Hm.
Qed.

Lemma dispatch_keeps_text opts l str argv i s s' :
  coherent opts ->
  (forall o, o ∈ l -> o ∈ opts) ->
  (forall o, o ∈ opts -> is_Some (detail.to_string (value o) (mem s))) ->
  step_state (dispatch l str argv i s) = Some s' ->
  forall o, o ∈ opts -> is_Some (detail.to_string (value o) (mem s')).
Proof.
  intros Hco. revert i s. induction l as [|x rest IH]; intros i s Hl Hm; simpl.
  - intros [= <-]. exact Hm.
  - assert (x ∈ opts) as Hx by (apply Hl; left).
    assert (forall o, o ∈ rest -> o ∈ opts) as Hrest by (intros o Ho; apply Hl; right; exact Ho).
    destruct (String.eqb (id (ids x)) str); [|apply IH; assumption].
    destruct (value x) as [b|T y|T y] eqn:Hv.
    + apply IH; [exact Hrest|]. simpl.
      apply (write_keeps_text opts x None (mem s)); try assumption.
      right. exists b. done.
    + destruct (argv_at argv (i + 1)) as [c|]; [|discriminate].
      destruct (detail.parse c (ref T y) (mem s)) as [m'|e] eqn:P.
      * apply IH; [exact Hrest|]. simpl.
        apply (write_keeps_text opts x c (mem s)); try assumption.
        left. rewrite Hv. exact P.
      * intros [= <-]. exact Hm.
    + destruct (argv_at argv (i + 1)) as [c|]; [|discriminate].
      destruct (detail.parse c (ref_opt T y) (mem s)) as [m'|e] eqn:P.
      * apply IH; [exact Hrest|]. simpl.
        apply (write_keeps_text opts x c (mem s)); try assumption.
        left. rewrite Hv. exact P.
      * intros [= <-]. exact Hm.
Qed.

Lemma option_lines_defined opts m :
  (forall o, o ∈ opts -> is_Some (detail.to_string (value o) m))
  <-> is_Some (option_lines opts m).
Proof.
  induction opts as [|x rest IH]; simpl.
  - split; [eauto|]. intros _ o Ho. apply elem_of_nil in Ho. done.
  - unfold option_line. split.
    + intros H. destruct (H x) as [d ->]; [left|].
      destruct (proj1 IH) as [ls ->]; [|eauto].
      intros o Ho. apply H. right. exact Ho.
    + intros H o Ho.
      destruct (detail.to_string (value x) m) as [d|] eqn:E;
        [|destruct H; discriminate].
      destruct (option_lines rest m) as [ls|] eqn:E'; [|destruct H; discriminate].
      apply elem_of_cons in Ho as [-> | Ho]; [rewrite E; eauto|].
      apply (proj2 IH); eauto.
Qed.

(** X17. What [help] writes is always defined: with a coherent table, if
    every option's variable holds a value of its binding's type before
    the call, so that [help] has a text to write, the same is true of the
    state the call ends with, and every output event the call added has
    its text. *)
Theorem help_text_stays_defined opts argc argv s o s' :
  coherent opts ->
  is_Some (help_text (description (ctx s)) (version (ctx s)) opts (mem s)) ->
  parse opts argc argv s = Some o ->
  final o = Some s' ->
  is_Some (help_text (description (ctx s')) (version (ctx s')) opts (mem s'))
  /\ (forall e, e ∈ cout s' -> e ∈ cout s \/ is_Some (event_text opts e)).
Proof.
  intros Hco Hs Hp Hf.
  assert (forall d v m, is_Some (help_text d v opts m) <-> is_Some (option_lines opts m)) as Hh.
  { intros d v m. unfold help_text.
    destruct (option_lines opts m); split; intros H; eauto; destruct H; discriminate. }
  rewrite Hh. apply Hh in Hs.
  pose proof (proj2 (option_lines_defined opts (mem s)) Hs) as Hs'.
  rewrite <- option_lines_defined. revert Hs'.
  apply (parse_relates (fun s s' =>
    (forall o, o ∈ opts -> is_Some (detail.to_string (value o) (mem s))) ->
    (forall o, o ∈ opts -> is_Some (detail.to_string (value o) (mem s')))
    /\ (forall e, e ∈ cout s' -> e ∈ cout s \/ is_Some (event_text opts e)))
    opts argc argv s o s'); try assumption.
  - tauto.
  - intros a b c H1 H2 H. destruct (H1 H) as [Hb Hab]. destruct (H2 Hb) as [Hc Hbc].
    split; [exact Hc|]. intros e He. destruct (Hbc e He) as [Hin|]; [|tauto].
    apply Hab. exact Hin.
  - intros t H. split; [exact H|]. simpl. intros e He.
    apply elem_of_app in He as [He|He]; [tauto|]. right.
    apply list_elem_of_singleton in He as ->. simpl.
    apply Hh, option_lines_defined. exact H.
  - intros i t t'. unfold loop_body.
    destruct (argv_at argv i) as [[bytes|]|]; try discriminate.
    destruct (flag_text (c_str bytes)) as [str|]; [|intros [= <-]; tauto].
    destruct (_ || _).
    { intros [= <-] H. split; [exact H|]. simpl. intros e He.
      apply elem_of_app in He as [He|He]; [tauto|]. right.
      apply list_elem_of_singleton in He as ->. simpl.
      apply Hh, option_lines_defined. exact H. }
    destruct (_ || _).
    { intros [= <-] H. split; [exact H|]. simpl. intros e He.
      apply elem_of_app in He as [He|He]; [tauto|]. right.
      apply list_elem_of_singleton in He as ->. simpl. eauto. }
    destruct (resolve opts str) as [str'|]; [|intros [= <-]; tauto].
    destruct (is_empty str'); [intros [= <-]; tauto|].
    intros Hd Hm.
    assert (step_state (dispatch opts str' argv i t) = Some t') as Hd'
      by (destruct (dispatch opts str' argv i t); exact Hd).
    split.
    + apply (dispatch_keeps_text opts opts str' argv i t t'); try assumption. tauto.
    + destruct (dispatch_io opts str' argv i t t' Hd') as [_ ->]. tauto.
Qed.

(** X19. A string or path binding shows what it was given: after the
    coercion of a token, [detail::to_string] of the binding is the token,
    for the plain and the optional binding alike. *)
Theorem text_token_is_shown_verbatim T x bytes m :
  T = Tstring \/ T = Tpath ->
  exists m1 m2,
    detail.parse (Some bytes) (ref T x) m = Ok m1
    /\ detail.to_string (ref T x) m1 = Some (c_str bytes)
    /\ detail.parse (Some bytes) (ref_opt T x) m = Ok m2
    /\ detail.to_string (ref_opt T x) m2 = Some (c_str bytes).
Proof.
  intros [-> | ->]; eexists _, _; rewrite parse_ref_eq, parse_opt_eq; simpl;
    rewrite !lookup_insert_eq; done.
Qed.


End Text.

Lemma not_bound opts x :
  forallb (fun o => negb (Pos.eqb (slot (value o)) x)) opts = true -> ~ bound opts x.
Proof.
  intros H (o & Ho & Hs). rewrite forallb_forall in H.
  apply list_elem_of_In, H in Ho. rewrite Hs, Pos.eqb_refl in Ho. done.
Qed.

Lemma same_type_refl v : same_type v v.
Proof. destruct v; done. Qed.

Lemma distinct_coherent opts :
  NoDup ((fun o => slot (value o)) <$> opts) -> coherent opts.
Proof.
  intros Hn o o' Ho Ho' Hs.
  apply list_elem_of_lookup in Ho as [i Hi], Ho' as [j Hj].
  assert (i = j) as ->.
  { eapply NoDup_lookup; [exact Hn| |];
      rewrite list_lookup_fmap; [rewrite Hi|rewrite Hj]; simpl; [done|].
    rewrite Hs. done. }
  rewrite Hi in Hj. injection Hj as ->. apply same_type_refl.
Qed.

(** * Instances of the further properties *)

(** Closes the cases in which an evaluated call did not end as assumed. *)
Ltac wrong_outcome E := vm_compute in E; first [discriminate | injection E as <-; discriminate].



(** [unbound_variables_are_untouched] on a variable at location 9, which no option of the table is bound to. *)
Lemma unbound_witness :
  match parse demo_table 6 demo_argv (demo_state (<[9%positive := Obj (Vint32 7)]> demo_mem)) with
  | Some (Returned s') =>
      mem s' !! 9%positive = Some (Obj (Vint32 7))
  | _ => False
  end.
Proof.
  destruct (parse demo_table 6 demo_argv _) as [[s'|e s'|]|] eqn:E; try wrong_outcome E.
  rewrite (unbound_variables_are_untouched demo_table 6 demo_argv _ _ s' 9%positive E eq_refl).
  - reflexivity.
  - apply not_bound. reflexivity.
Defined.

(** [coercion_fails_only_on_numbers] on the token x1 and an optional unsigned 64-bit binding. *)
Lemma coercion_failure_witness :
  exists bytes T x,
    Some "x1" = Some bytes
    /\ (ref_opt Tuint64 2 = ref T x \/ ref_opt Tuint64 2 = ref_opt T x)
    /\ numeric T = true
    /\ (invalid_argument "stol" = invalid_argument (conversion T)
        \/ invalid_argument "stol" = out_of_range (conversion T)).
Proof.
  apply (coercion_fails_only_on_numbers (FP := text_float)
           (Some "x1") (ref_opt Tuint64 2) demo_mem (invalid_argument "stol")).
  reflexivity.
Defined.

(** [parse_throws_only_these] on the tokens --count many. *)
Lemma exception_witness :
  parse demo_table 3 [Some "prog"; Some "--count"; Some "many"; None] (demo_state demo_mem)
  = Some (Thrown (invalid_argument "stol") (demo_state demo_mem))
  /\ parse_exception (invalid_argument "stol").
Proof.
  split; [vm_compute; reflexivity|].
  apply (parse_throws_only_these (FP := text_float) demo_table 3
           [Some "prog"; Some "--count"; Some "many"; None]
           (demo_state demo_mem) _ (demo_state demo_mem)).
  vm_compute. reflexivity.
Defined.

(** [boolean_flag_takes_no_value] on -V followed by a stray token. *)
Lemma boolean_flag_witness :
  loop_body demo_table [Some "prog"; Some "-V"; Some "stray"; None] 1 (demo_state demo_mem)
  = Next 2 (demo_state (<[3%positive := Obj (Vbool true)]> demo_mem)).
Proof.
  apply (boolean_flag_takes_no_value demo_table
           [Some "prog"; Some "-V"; Some "stray"; None] 1 (demo_state demo_mem)
           "-V" "V" "verbose" (option_of "verbose" "V" (ref_bool 3)) 3%positive);
    reflexivity.
Defined.

(** [value_flag_takes_one_value] on --count followed by -5. *)
Lemma value_flag_witness :
  loop_body demo_table [Some "prog"; Some "--count"; Some "-5"; None] 1 (demo_state demo_mem)
  = match detail.parse (Some "-5") (ref Tint32 1) demo_mem with
    | Ok m => Next 3 (set_mem m (demo_state demo_mem))
    | Throw e => Stop (Thrown e (demo_state demo_mem))
    end.
Proof.
  apply (value_flag_takes_one_value demo_table
           [Some "prog"; Some "--count"; Some "-5"; None] 1 (demo_state demo_mem)
           "--count" "count" "count" (option_of "count" "c" (ref Tint32 1)) (Some "-5"));
    reflexivity.
Defined.


(** [one_dash_or_two] on -count and --count. *)
Lemma dash_witness :
  loop_body demo_table [Some "prog"; Some "-count"; Some "5"; None] 1 (demo_state demo_mem)
  = loop_body demo_table [Some "prog"; Some "--count"; Some "5"; None] 1 (demo_state demo_mem).
Proof.
  apply (one_dash_or_two demo_table [Some "prog"; Some "?"; Some "5"; None] 1
           (demo_state demo_mem) "-count" "--count" "count");
    try reflexivity; simpl; lia.
Defined.


(** [later_value_replaces_earlier] on the tokens 7 and then 8. *)
Lemma later_value_witness :
  detail.parse (Some "8") (ref Tint32 1) (<[1%positive := Obj (Vint32 7)]> demo_mem)
  = detail.parse (Some "8") (ref Tint32 1) demo_mem.
Proof.
  apply (later_value_replaces_earlier (Some "7") "8" (ref Tint32 1) demo_mem).
  vm_compute. reflexivity.
Defined.

(** [coercions_commute] on a count and a name. *)
Lemma commute_witness :
  exists m2,
    detail.parse (Some "ann") (ref_opt Tstring 4) demo_mem = Ok m2
    /\ detail.parse (Some "7") (ref Tint32 1) m2
       = Ok (<[4%positive := Opt (Some (Vstring "ann"))]>
               (<[1%positive := Obj (Vint32 7)]> demo_mem)).
Proof.
  apply (coercions_commute (Some "7") (Some "ann") (ref Tint32 1) (ref_opt Tstring 4)
           demo_mem (<[1%positive := Obj (Vint32 7)]> demo_mem)).
  - discriminate.
  - vm_compute. reflexivity.
  - vm_compute. reflexivity.
Defined.

(** [integer_coercion_wraps] on 4294967297, which a signed 32-bit variable takes as 1. *)
Lemma wrap_witness :
  exists n a k,
    stol (c_str "4294967297") = Ok n
    /\ <[1%positive := Obj (Vint32 1)]> demo_mem = <[1%positive := Obj a]> demo_mem
    /\ int_value Tint32 a = Some k
    /\ - 2 ^ 31 <= k <= 2 ^ 31 - 1
    /\ (k - n) mod (2 ^ 31 - 1 - - 2 ^ 31 + 1) = 0
    /\ (- 2 ^ 31 <= n <= 2 ^ 31 - 1 -> k = n).
Proof.
  apply (integer_coercion_wraps Tint32 (- 2 ^ 31) (2 ^ 31 - 1) 1%positive "4294967297"
           demo_mem).
  - reflexivity.
  - vm_compute. reflexivity.
Defined.

(** [beyond_long_is_out_of_range] on 2^64 - 1 and an unsigned 64-bit
    binding: its decimal text is refused, the text -1 stores it. *)
Lemma beyond_long_witness :
  to_string_Z (2 ^ 64 - 1) = "18446744073709551615"
  /\ to_string_Z (2 ^ 64 - 1 - 2 ^ 64) = "-1"
  /\ detail.parse (Some (to_string_Z (2 ^ 64 - 1))) (ref Tuint64 2) demo_mem
     = Throw (out_of_range "stol")
  /\ detail.parse (Some (to_string_Z (2 ^ 64 - 1))) (ref_opt Tuint64 2) demo_mem
     = Throw (out_of_range "stol")
  /\ detail.parse (Some (to_string_Z (2 ^ 64 - 1 - 2 ^ 64))) (ref Tuint64 2) demo_mem
     = Ok (<[2%positive := Obj (Vuint64 (2 ^ 64 - 1))]> demo_mem).
Proof.
  split; [reflexivity|]. split; [reflexivity|].
  destruct (beyond_long_is_out_of_range (FP := text_float) Tuint64 0 (2 ^ 64 - 1) 2%positive
              (2 ^ 64 - 1) demo_mem eq_refl (or_intror eq_refl)) as (H1 & H2 & H3).
  split; [exact H1|]. split; [exact H2|]. apply H3. vm_compute. split; [reflexivity | discriminate].
Defined.

(** [to_string_then_parse] on a signed 32-bit variable that holds -42. *)
Lemma round_trip_witness :
  (<[1%positive := Obj (Vint32 (-42))]> demo_mem !! 1%positive = Some (Obj (Vint32 (-42))) ->
   exists text,
     detail.to_string (TS := text_to_string) (ref Tint32 1)
       (<[1%positive := Obj (Vint32 (-42))]> demo_mem) = Some text
     /\ detail.parse (Some text) (ref Tint32 1) (<[1%positive := Obj (Vint32 (-42))]> demo_mem)
        = Ok (<[1%positive := Obj (Vint32 (-42))]> demo_mem))
  /\ (<[1%positive := Obj (Vint32 (-42))]> demo_mem !! 1%positive
        = Some (Opt (Some (Vint32 (-42)))) ->
      exists text,
        detail.to_string (TS := text_to_string) (ref_opt Tint32 1)
          (<[1%positive := Obj (Vint32 (-42))]> demo_mem) = Some text
        /\ detail.parse (Some text) (ref_opt Tint32 1)
             (<[1%positive := Obj (Vint32 (-42))]> demo_mem)
           = Ok (<[1%positive := Obj (Vint32 (-42))]> demo_mem)).
Proof.
  apply (to_string_then_parse (TS := text_to_string) Tint32 1%positive (Vint32 (-42))).
  reflexivity.
Defined.

(** [help_text_stays_defined] on the sample table and command line. *)
Lemma help_text_witness :
  match parse demo_table 6 demo_argv (demo_state demo_mem) with
  | Some (Returned s') =>
      is_Some (help_text (TS := text_to_string) (description (ctx s')) (version (ctx s'))
                 demo_table (mem s'))
      /\ (forall e, e ∈ cout s' ->
            e ∈ cout (demo_state demo_mem)
            \/ is_Some (event_text (TS := text_to_string) demo_table e))
  | _ => False
  end.
Proof.
  destruct (parse demo_table 6 demo_argv (demo_state demo_mem)) as [[s'|e s'|]|] eqn:E;
    try wrong_outcome E.
  apply (help_text_stays_defined (TS := text_to_string) demo_table 6 demo_argv
           (demo_state demo_mem) (Returned s') s'); [| |exact E|reflexivity].
  - apply distinct_coherent. apply (bool_decide_unpack _). vm_compute. exact I.
  - vm_compute. eauto.
Defined.

(** [text_token_is_shown_verbatim] on a path binding and the token a.txt. *)
Lemma text_token_witness :
  exists m1 m2,
    detail.parse (Some "a.txt") (ref Tpath 4) demo_mem = Ok m1
    /\ detail.to_string (TS := text_to_string) (ref Tpath 4) m1 = Some (c_str "a.txt")
    /\ detail.parse (Some "a.txt") (ref_opt Tpath 4) demo_mem = Ok m2
    /\ detail.to_string (TS := text_to_string) (ref_opt Tpath 4) m2 = Some (c_str "a.txt").
Proof.
  apply (text_token_is_shown_verbatim (TS := text_to_string) Tpath 4%positive "a.txt"
           demo_mem).
  right. reflexivity.
Defined.

